(** * Dynamics CRM toolkit: the SQL-like parser and the request builders

    A shallow embedding of [src/sql-parser.ts] (class [SqlParser]), of
    [QueryToolController.buildQueryUrl] / [executeQuery] (query-tool.ts) and
    of the URL building and guards of [DynamicsApi] (dynamics-api.ts),
    followed by the properties of the specification that were checked
    against them.

    Strings.  A JavaScript string is a sequence of UTF-16 code units.  The
    model keeps the code units below 256 (Rocq's [ascii], read as Latin-1)
    and writes a string as a [list ascii].  On that range [\s] and [trim]
    know the seven white-space characters 9-13, 32 and 160; [toUpperCase]
    and [toLowerCase] act on the ASCII letters (the Latin-1 letters whose
    image is not ASCII can never take part in a comparison with the ASCII
    keywords of the parser, so leaving them in place is not observable).

    Numbers.  [Number(text)] is only tested for NaN by the parser; a number
    is kept as the literal it was read from ([VNum]).  [parseInt] of a digit
    string is the double nearest to the integer written, or [Infinity]
    ([number]), and [toString] prints a double as ECMAScript does. *)

From Stdlib Require Import Ascii String List Bool Arith ZArith Lia.
From Stdlib Require Import DecimalString.
Import ListNotations.

Set Implicit Arguments.

(** ** Characters and strings *)

Definition str := list ascii.

(** [js "text"] is the JavaScript string literal ['text']. *)
Definition js (s : string) : str := list_ascii_of_string s.

Definition code (c : ascii) : nat := nat_of_ascii c.

Definition in_range (lo hi : nat) (c : ascii) : bool :=
  (lo <=? code c) && (code c <=? hi).

Definition is_upper (c : ascii) : bool := in_range 65 90 c.
Definition is_lower (c : ascii) : bool := in_range 97 122 c.
Definition is_digit (c : ascii) : bool := in_range 48 57 c.

(** [\w] is [[A-Za-z0-9_]]. *)
Definition is_word (c : ascii) : bool :=
  is_upper c || is_lower c || is_digit c || (code c =? 95).

(** [\s], which is also the set that [trim] removes. *)
Definition is_space (c : ascii) : bool :=
  in_range 9 13 c || (code c =? 32) || (code c =? 160).

(** [.] matches everything but the line terminators. *)
Definition is_dot (c : ascii) : bool :=
  negb ((code c =? 10) || (code c =? 13)).

Definition is_char (a : ascii) (c : ascii) : bool := Ascii.eqb c a.

Definition upper_char (c : ascii) : ascii :=
  if is_lower c then ascii_of_nat (code c - 32) else c.

Definition lower_char (c : ascii) : ascii :=
  if is_upper c then ascii_of_nat (code c + 32) else c.

Definition toUpperCase (s : str) : str := map upper_char s.
Definition toLowerCase (s : str) : str := map lower_char s.

(** A literal character of a pattern under the [i] flag: both sides are
    canonicalised with [toUpperCase]. *)
Definition is_char_ci (a : ascii) (c : ascii) : bool :=
  Ascii.eqb (upper_char c) (upper_char a).

Fixpoint str_eqb (a b : str) : bool :=
  match a, b with
  | [], [] => true
  | x :: a', y :: b' => Ascii.eqb x y && str_eqb a' b'
  | _, _ => false
  end.

Fixpoint startsWith (s p : str) : bool :=
  match p, s with
  | [], _ => true
  | a :: p', c :: s' => Ascii.eqb c a && startsWith s' p'
  | _ :: _, [] => false
  end.

Definition endsWith (s p : str) : bool := startsWith (rev s) (rev p).

Fixpoint trimStart (s : str) : str :=
  match s with
  | c :: s' => if is_space c then trimStart s' else s
  | [] => []
  end.

Definition trimEnd (s : str) : str := rev (trimStart (rev s)).

Definition trim (s : str) : str := trimEnd (trimStart s).

(** [s.substring(a, b)]: the bounds are clamped to the length and swapped
    when they come in the wrong order. *)
Definition substring (a b : nat) (s : str) : str :=
  let a' := Nat.min a (length s) in
  let b' := Nat.min b (length s) in
  let lo := Nat.min a' b' in
  let hi := Nat.max a' b' in
  firstn (hi - lo) (skipn lo s).

(** [s.split(sep)] for a separator of one character: never empty. *)
Fixpoint split (sep : ascii) (s : str) : list str :=
  match s with
  | [] => [[]]
  | c :: s' =>
      if Ascii.eqb c sep then [] :: split sep s'
      else match split sep s' with
           | h :: t => (c :: h) :: t
           | [] => [[c]]
           end
  end.

(** [parts.join(sep)]. *)
Fixpoint join (sep : str) (parts : list str) : str :=
  match parts with
  | [] => []
  | [p] => p
  | p :: rest => p ++ sep ++ join sep rest
  end.

(** Every character. *)
Definition all_chars : list ascii := map ascii_of_nat (seq 0 256).

(** A string in a condition: [undefined] and [''] are falsy. *)
Definition truthy (o : option str) : bool :=
  match o with
  | Some (_ :: _) => true
  | _ => false
  end.

(** ** Regular expressions

    The patterns of the source use literals, classes, sequence, alternation
    (through [?]), greedy and lazy [*] and [+], and capturing groups.  The
    matcher is the backtracking matcher of ECMAScript written with
    continuations: [rmatch r s c k] matches [r] at the head of [s] under
    captures [c] and hands the rest of the input to [k]; a failing [k]
    makes the matcher try its next choice.  An iteration of a quantifier
    that consumes nothing is refused, as ECMAScript's RepeatMatcher does,
    so a loop runs at most [length s] times.  No pattern of the source
    repeats a group, hence captures are never reset. *)

Module Regex.

Inductive regex : Type :=
| Eps
| Chr (p : ascii -> bool)
| Seq (a b : regex)
| Alt (a b : regex)
| Opt (a : regex)
| Star (greedy : bool) (a : regex)
| Group (i : nat) (a : regex).

Definition Plus (greedy : bool) (a : regex) : regex := Seq a (Star greedy a).

Fixpoint Lit (s : str) : regex :=
  match s with
  | [] => Eps
  | c :: s' => Seq (Chr (is_char c)) (Lit s')
  end.

Fixpoint LitCI (s : str) : regex :=
  match s with
  | [] => Eps
  | c :: s' => Seq (Chr (is_char_ci c)) (LitCI s')
  end.

(** Captures: the latest binding of a group comes first. *)
Definition caps := list (nat * str).

Fixpoint cap (i : nat) (c : caps) : option str :=
  match c with
  | [] => None
  | (j, w) :: c' => if Nat.eqb j i then Some w else cap i c'
  end.

(** What was consumed between the input [s] and its suffix [s']. *)
Definition consumed (s s' : str) : str := firstn (length s - length s') s.

Section Matcher.

Variable R : Type.

Definition cont := str -> caps -> option R.
Definition matcher := str -> caps -> cont -> option R.

Definition orElse (x y : option R) : option R :=
  match x with
  | Some _ => x
  | None => y
  end.

(** An iteration must make progress. *)
Definition progress (s : str) (k : cont) : cont :=
  fun s' c' => if length s' <? length s then k s' c' else None.

Fixpoint star_loop (m : matcher) (greedy : bool) (k : cont)
    (n : nat) (s : str) (c : caps) : option R :=
  let more :=
    match n with
    | 0 => None
    | S n' => m s c (progress s (star_loop m greedy k n'))
    end in
  if greedy then orElse more (k s c) else orElse (k s c) more.

Fixpoint rmatch (r : regex) (s : str) (c : caps) (k : cont) : option R :=
  match r with
  | Eps => k s c
  | Chr p =>
      match s with
      | x :: s' => if p x then k s' c else None
      | [] => None
      end
  | Seq a b => rmatch a s c (fun s' c' => rmatch b s' c' k)
  | Alt a b => orElse (rmatch a s c k) (rmatch b s c k)
  | Opt a => orElse (rmatch a s c (progress s k)) (k s c)
  | Star greedy a => star_loop (rmatch a) greedy k (length s) s c
  | Group i a => rmatch a s c (fun s' c' => k s' ((i, consumed s s') :: c'))
  end.

End Matcher.

(** A match at the head of [s]: the rest of the input and the captures. *)
Definition match_at (r : regex) (s : str) : option (str * caps) :=
  rmatch r s [] (fun s' c' => Some (s', c')).

(** [r] matches the whole of [s]. *)
Definition full_match (r : regex) (s : str) : bool :=
  match rmatch r s [] (fun s' _ => match s' with [] => Some tt | _ => None end) with
  | Some _ => true
  | None => false
  end.

(** [s.match(r)] without the [g] flag: the leftmost start that matches. *)
Fixpoint exec (r : regex) (s : str) : option (str * caps) :=
  match match_at r s with
  | Some m => Some m
  | None =>
      match s with
      | [] => None
      | _ :: s' => exec r s'
      end
  end.

(** [s.replace(r, rep)] with the [g] flag and a replacement free of [$]:
    after a match the search goes on behind it, and an empty match copies
    one character before the search goes on. *)
Fixpoint replace_from (fuel : nat) (r : regex) (rep s : str) : str :=
  match fuel with
  | 0 => s
  | S fuel' =>
      let skip :=
        match s with
        | [] => []
        | x :: s' => x :: replace_from fuel' r rep s'
        end in
      match match_at r s with
      | Some (rest, _) =>
          if length rest <? length s
          then rep ++ replace_from fuel' r rep rest
          else rep ++ skip
      | None => skip
      end
  end.

Definition replace_all (r : regex) (rep s : str) : str :=
  replace_from (S (length s)) r rep s.

(** [s.split(r)]: the pieces between the matches; a match that ends where
    the current piece starts does not split. *)
Fixpoint split_from (fuel : nat) (r : regex) (piece s : str) : list str :=
  match fuel with
  | 0 => [rev piece ++ s]
  | S fuel' =>
      match s with
      | [] => [rev piece]
      | x :: s' =>
          match match_at r s with
          | Some (rest, _) =>
              match piece with
              | [] =>
                  if length rest <? length s
                  then [] :: split_from fuel' r [] rest
                  else split_from fuel' r [x] s'
              | _ :: _ => rev piece :: split_from fuel' r [] rest
              end
          | None => split_from fuel' r (x :: piece) s'
          end
      end
  end.

Definition split_re (r : regex) (s : str) : list str :=
  match s with
  | [] => match match_at r [] with Some _ => [] | None => [[]] end
  | _ :: _ => split_from (S (2 * length s)) r [] s
  end.

(** The matches of a pattern, as a relation: [Matches r s c s' c'] when [r]
    can consume the head of [s] up to [s'] and turn the captures [c] into
    [c'].  The matcher explores these in the order of ECMAScript and
    answers with the first that its continuation accepts. *)
Inductive Matches : regex -> str -> caps -> str -> caps -> Prop :=
| M_Eps s c : Matches Eps s c s c
| M_Chr (p : ascii -> bool) x s c :
    p x = true -> Matches (Chr p) (x :: s) c s c
| M_Seq a b s c s1 c1 s2 c2 :
    Matches a s c s1 c1 -> Matches b s1 c1 s2 c2 ->
    Matches (Seq a b) s c s2 c2
| M_AltL a b s c s1 c1 : Matches a s c s1 c1 -> Matches (Alt a b) s c s1 c1
| M_AltR a b s c s1 c1 : Matches b s c s1 c1 -> Matches (Alt a b) s c s1 c1
| M_OptSkip a s c : Matches (Opt a) s c s c
| M_OptTake a s c s1 c1 :
    Matches a s c s1 c1 -> length s1 < length s ->
    Matches (Opt a) s c s1 c1
| M_StarStop g a s c : Matches (Star g a) s c s c
| M_StarStep g a s c s1 c1 s2 c2 :
    Matches a s c s1 c1 -> length s1 < length s ->
    Matches (Star g a) s1 c1 s2 c2 ->
    Matches (Star g a) s c s2 c2
| M_Group i a s c s1 c1 :
    Matches a s c s1 c1 ->
    Matches (Group i a) s c s1 ((i, consumed s s1) :: c1).

(** [k] can be reached through [r]; for a loop, with any fuel that covers
    the input. *)
Definition accepts (R : Type) (r : regex) (s : str) (c : caps) (k : cont R)
    : Prop :=
  match r with
  | Star g a => forall n, length s <= n -> star_loop (rmatch a) g k n s c <> None
  | _ => rmatch r s c k <> None
  end.

(** The groups of a pattern. *)
Fixpoint groups (r : regex) : list nat :=
  match r with
  | Eps | Chr _ => []
  | Seq a b | Alt a b => groups a ++ groups b
  | Opt a | Star _ a => groups a
  | Group i a => i :: groups a
  end.

(** Group [i] of [r] is, wherever it occurs, the group [(body)]. *)
Fixpoint group_is (i : nat) (body : regex) (r : regex) : Prop :=
  match r with
  | Eps | Chr _ => True
  | Seq a b | Alt a b => group_is i body a /\ group_is i body b
  | Opt a | Star _ a => group_is i body a
  | Group j a => (j = i -> a = body) /\ group_is i body a
  end.

End Regex.

Import Regex.

(** The pieces every pattern of the source is made of. *)
Fixpoint cat (l : list regex) : regex :=
  match l with
  | [] => Eps
  | [r] => r
  | r :: l' => Seq r (cat l')
  end.

Definition ws_plus : regex := Plus true (Chr is_space).      (* \s+ *)
Definition ws_star : regex := Star true (Chr is_space).      (* \s* *)
Definition lazy_any : regex := Star false (Chr is_dot).      (* .*? *)
Definition word_plus : regex := Plus true (Chr is_word).     (* \w+ *)
Definition digit_plus : regex := Plus true (Chr is_digit).   (* \d+ *)
Definition digit_star : regex := Star true (Chr is_digit).   (* \d* *)

Definition one_of (l : str) (c : ascii) : bool := existsb (Ascii.eqb c) l.

(** ** Values *)

Inductive jsvalue : Type :=
| VStr (s : str)
| VNum (literal : str)     (* the number [Number(literal)] *)
| VBool (b : bool)
| VNull
| VUndefined.

(** The strings [t] for which [Number(t)] is not NaN (StringNumericLiteral
    of ECMAScript): white space around the literal is dropped, the empty
    string is 0, a decimal literal may carry a sign, a fraction and an
    exponent, and the binary, octal and hexadecimal forms are unsigned. *)
Definition exponent_part : regex :=
  Opt (cat [Chr (one_of (js "eE")); Opt (Chr (one_of (js "+-"))); digit_plus]).

Definition unsigned_decimal : regex :=
  Alt (Lit (js "Infinity"))
 (Alt (cat [digit_plus; Chr (is_char "."); digit_star; exponent_part])
 (Alt (cat [Chr (is_char "."); digit_plus; exponent_part])
      (cat [digit_plus; exponent_part]))).

Definition is_hex (c : ascii) : bool :=
  is_digit c || in_range 65 70 c || in_range 97 102 c.

Definition numeric_literal : regex :=
  Alt (Seq (Opt (Chr (one_of (js "+-")))) unsigned_decimal)
 (Alt (cat [Chr (is_char "0"); Chr (one_of (js "bB")); Plus true (Chr (one_of (js "01")))])
 (Alt (cat [Chr (is_char "0"); Chr (one_of (js "oO")); Plus true (Chr (in_range 48 55))])
      (cat [Chr (is_char "0"); Chr (one_of (js "xX")); Plus true (Chr is_hex)]))).

Definition is_number (t : str) : bool :=
  match trim t with
  | [] => true
  | t' => full_match numeric_literal t'
  end.

(** Numbers.  A number of the program is a double.  Those that
    [parseInt(t, 10)] returns are the integers among the doubles and the
    two infinities (and NaN, which is [None] below); an integral double
    is kept as the integer it is equal to.  The two zeros are kept as one:
    the program tests such a number for truth and prints it, and [-0] and
    [0] behave alike in both. *)
Inductive number : Type :=
| Finite (n : Z)
| Infinite (negative : bool).

(** The double nearest to a natural number, ties to the even mantissa of
    53 bits; [None] when the rounded value is beyond the doubles. *)
Definition nearest_double (n : Z) : option Z :=
  if (n <? 2 ^ 53)%Z then Some n
  else
    let e := (Z.log2 n - 52)%Z in
    let q := (n / 2 ^ e)%Z in
    let r := (n mod 2 ^ e)%Z in
    let half := (2 ^ (e - 1))%Z in
    let q' := if (half <? r)%Z || ((r =? half)%Z && Z.odd q)
              then (q + 1)%Z else q in
    let v := (q' * 2 ^ e)%Z in
    if (v <? 2 ^ 1024)%Z then Some v else None.

(** The Number value of an integer. *)
Definition to_number (z : Z) : number :=
  match nearest_double (Z.abs z) with
  | Some v => Finite (if (z <? 0)%Z then (- v)%Z else v)
  | None => Infinite (z <? 0)%Z
  end.

(** [parseInt(t, 10)]: white space, a sign, then the digits it can read,
    rounded to a double (ECMAScript allows an implementation to read the
    digits behind the 20th as zeros; the engines round the exact value);
    [None] is NaN. *)
Fixpoint digits_value (acc : Z) (s : str) : Z :=
  match s with
  | c :: s' =>
      if is_digit c then digits_value (10 * acc + Z.of_nat (code c - 48))%Z s'
      else acc
  | [] => acc
  end.

Definition parseInt10 (t : str) : option number :=
  match trimStart t with
  | c :: s' =>
      if is_digit c then Some (to_number (digits_value 0 (c :: s')))
      else if one_of (js "+-") c then
        match s' with
        | d :: _ =>
            if is_digit d
            then Some (to_number (if Ascii.eqb c "-" then - digits_value 0 s'
                                  else digits_value 0 s')%Z)
            else None
        | [] => None
        end
      else None
  | [] => None
  end.

(** The decimal digits of an integer. *)
Definition int_toString (z : Z) : str :=
  js (NilEmpty.string_of_int (Z.to_int z)).

(** [if (n)]: a number is false when it is zero (or NaN). *)
Definition number_truthy (x : number) : bool :=
  match x with
  | Finite n => negb (n =? 0)%Z
  | Infinite _ => true
  end.

(** [n.toString()], Number::toString of ECMAScript in radix 10.  The
    digits are those of the shortest decimal [s * 10^m] that still rounds
    to the double [x], the one nearest to [x] when there are two, the even
    [s] on a tie; [d] is the number of digits of [x] and [k] that of [s]. *)
Definition rounds_to (x v : Z) : bool :=
  match nearest_double v with
  | Some y => (y =? x)%Z
  | None => false
  end.

Fixpoint shortest_from (fuel k : nat) (x : Z) (d : nat) : Z :=
  match fuel with
  | 0 => x
  | S fuel' =>
      if d <=? k then x
      else
        let p := (10 ^ Z.of_nat (d - k))%Z in
        let lo := (x / p * p)%Z in
        let hi := (lo + p)%Z in
        match rounds_to x lo, rounds_to x hi with
        | true, true =>
            if (x - lo <? hi - x)%Z then lo
            else if (hi - x <? x - lo)%Z then hi
            else if Z.even (x / p) then lo else hi
        | true, false => lo
        | false, true => hi
        | false, false => shortest_from fuel' (S k) x d
        end
  end.

Definition shortest_decimal (x : Z) : Z :=
  let d := length (int_toString x) in
  shortest_from d 1 x d.

Fixpoint strip_zeros (rev_digits : str) : str :=
  match rev_digits with
  | c :: r => if Ascii.eqb c "0" then strip_zeros r else c :: r
  | [] => []
  end.

(** A natural number of at most 21 digits is printed in full, a longer
    one with an exponent: [1e+21], [1.5e+300]. *)
Definition print_decimal (v : Z) : str :=
  let digits := int_toString v in
  let n := length digits in
  if n <=? 21 then digits
  else
    match rev (strip_zeros (rev digits)) with
    | c :: [] => [c] ++ js "e+" ++ int_toString (Z.of_nat (n - 1))
    | c :: frac => [c] ++ js "." ++ frac ++ js "e+" ++ int_toString (Z.of_nat (n - 1))
    | [] => digits
    end.

Definition number_toString (x : number) : str :=
  match x with
  | Infinite negative => (if negative then js "-" else []) ++ js "Infinity"
  | Finite n =>
      (if (n <? 0)%Z then js "-" else [])
      ++ print_decimal (shortest_decimal (Z.abs n))
  end.

(** ** Objects

    [valuesObj] starts as [{}] and is only written through
    [valuesObj[key] = v].  The keys are kept in the order of creation (the
    order in which JavaScript enumerates them is not used below).  An
    object literal inherits the accessor [__proto__] of [Object.prototype]:
    writing that key creates no property; it drops the prototype when the
    value is [null] and does nothing for the other primitive values.  Once
    the prototype is gone [__proto__] is a key like the others. *)

Record jsobject : Type := {
  has_prototype : bool;
  props : list (str * jsvalue)
}.

Definition empty_object : jsobject :=
  {| has_prototype := true; props := [] |}.

Fixpoint assoc_set (k : str) (v : jsvalue) (l : list (str * jsvalue))
    : list (str * jsvalue) :=
  match l with
  | [] => [(k, v)]
  | (k', v') :: l' =>
      if str_eqb k' k then (k, v) :: l' else (k', v') :: assoc_set k v l'
  end.

Fixpoint assoc_get (k : str) (l : list (str * jsvalue)) : option jsvalue :=
  match l with
  | [] => None
  | (k', v') :: l' => if str_eqb k' k then Some v' else assoc_get k l'
  end.

Definition proto_key : str := js "__proto__".

Definition obj_set (o : jsobject) (k : str) (v : jsvalue) : jsobject :=
  if str_eqb k proto_key && has_prototype o then
    match v with
    | VNull => {| has_prototype := false; props := props o |}
    | _ => o
    end
  else {| has_prototype := has_prototype o; props := assoc_set k v (props o) |}.

(** The own property [k] of [o]. *)
Definition obj_get (o : jsobject) (k : str) : option jsvalue :=
  assoc_get k (props o).

Definition keys (o : jsobject) : list str := map fst (props o).

(** ** Errors *)

Inductive error : Type :=
| Error (message : str)
| TypeError.

Inductive result (A : Type) : Type :=
| Ok (a : A)
| Err (e : error).

Arguments Ok {A} a.
Arguments Err {A} e.

Definition bind {A B : Type} (x : result A) (f : A -> result B) : result B :=
  match x with
  | Ok a => f a
  | Err e => Err e
  end.

(** ** sql-parser.ts *)

Inductive operation_t : Type := SELECT | INSERT | UPDATE | DELETE.

Record order_item : Type := {
  field : str;
  direction : str
}.

Record ParsedQuery : Type := {
  operation : operation_t;
  entity : str;
  fields : option (list str);
  filter : option str;
  orderBy : option (list order_item);
  limit : option number;
  values : option jsobject
}.

Module SqlParser.

Definition UnsupportedOperation : error :=
  Error (js "Unsupported SQL operation. Only SELECT, INSERT, UPDATE, and DELETE are supported.").
Definition InvalidSelect : error := Error (js "Invalid SELECT query format").
Definition InvalidInsert : error := Error (js "Invalid INSERT query format").
Definition InvalidUpdate : error := Error (js "Invalid UPDATE query format").
Definition InvalidDelete : error := Error (js "Invalid DELETE query format").

(** /SELECT\s+(.*?)\s+FROM\s+(\w+)(?:\s+WHERE\s+(.*?))?(?:\s+ORDER\s+BY\s+(.*?))?(?:\s+LIMIT\s+(\d+))?;/i *)
Definition selectPattern : regex :=
  cat [LitCI (js "SELECT"); ws_plus; Group 1 lazy_any; ws_plus;
       LitCI (js "FROM"); ws_plus; Group 2 word_plus;
       Opt (cat [ws_plus; LitCI (js "WHERE"); ws_plus; Group 3 lazy_any]);
       Opt (cat [ws_plus; LitCI (js "ORDER"); ws_plus; LitCI (js "BY"); ws_plus;
                 Group 4 lazy_any]);
       Opt (cat [ws_plus; LitCI (js "LIMIT"); ws_plus; Group 5 digit_plus]);
       Chr (is_char ";")].

(** /INSERT\s+INTO\s+(\w+)\s+\((.*?)\)\s+VALUES\s+\((.*?)\);/i *)
Definition insertPattern : regex :=
  cat [LitCI (js "INSERT"); ws_plus; LitCI (js "INTO"); ws_plus;
       Group 1 word_plus; ws_plus;
       Chr (is_char "("); Group 2 lazy_any; Chr (is_char ")"); ws_plus;
       LitCI (js "VALUES"); ws_plus;
       Chr (is_char "("); Group 3 lazy_any; Chr (is_char ")");
       Chr (is_char ";")].

(** /UPDATE\s+(\w+)\s+SET\s+(.*?)(?:\s+WHERE\s+(.*?))?;/i *)
Definition updatePattern : regex :=
  cat [LitCI (js "UPDATE"); ws_plus; Group 1 word_plus; ws_plus;
       LitCI (js "SET"); ws_plus; Group 2 lazy_any;
       Opt (cat [ws_plus; LitCI (js "WHERE"); ws_plus; Group 3 lazy_any]);
       Chr (is_char ";")].

(** /DELETE\s+FROM\s+(\w+)(?:\s+WHERE\s+(.*?))?;/i *)
Definition deletePattern : regex :=
  cat [LitCI (js "DELETE"); ws_plus; LitCI (js "FROM"); ws_plus;
       Group 1 word_plus;
       Opt (cat [ws_plus; LitCI (js "WHERE"); ws_plus; Group 2 lazy_any]);
       Chr (is_char ";")].

(** The replacements of [translateWhereClause], in the order of the source. *)
Definition whereRules : list (regex * str) :=
  [ (cat [ws_plus; LitCI (js "AND"); ws_plus], js " and ");
    (cat [ws_plus; LitCI (js "OR"); ws_plus], js " or ");
    (cat [ws_star; Lit (js "="); ws_star], js " eq ");
    (cat [ws_star; Lit (js "<>"); ws_star], js " ne ");
    (cat [ws_star; Lit (js ">"); ws_star], js " gt ");
    (cat [ws_star; Lit (js "<"); ws_star], js " lt ");
    (cat [ws_star; Lit (js ">="); ws_star], js " ge ");
    (cat [ws_star; Lit (js "<="); ws_star], js " le ");
    (cat [ws_plus; LitCI (js "LIKE"); ws_plus], js " contains ");
    (cat [ws_plus; LitCI (js "IS NULL"); ws_star], js " eq null");
    (cat [ws_plus; LitCI (js "IS NOT NULL"); ws_star], js " ne null") ].

Definition translateWhereClause (whereClause : str) : str :=
  fold_left (fun s rule => replace_all (fst rule) (snd rule) s)
            whereRules whereClause.

Definition parseOrderBy (orderByClause : str) : list order_item :=
  map (fun item =>
         let parts := split_re ws_plus (trim item) in
         let d := match nth_error parts 1 with
                  | Some (c :: p) => c :: p
                  | _ => js "ASC"
                  end in
         {| field := hd [] parts;
            direction := if str_eqb (toUpperCase d) (js "DESC")
                         then js "desc" else js "asc" |})
      (split "," orderByClause).

(** The typing of a trimmed literal; [parseInsert] and [parseUpdate] carry
    the same chain of tests. *)
Definition literal (trimmed : str) : jsvalue :=
  if startsWith trimmed (js "'") && endsWith trimmed (js "'")
  then VStr (substring 1 (length trimmed - 1) trimmed)
  else if is_number trimmed then VNum trimmed
  else if str_eqb (toLowerCase trimmed) (js "true") then VBool true
  else if str_eqb (toLowerCase trimmed) (js "false") then VBool false
  else if str_eqb (toLowerCase trimmed) (js "null") then VNull
  else VStr trimmed.

(** A group that is no part of an optional sub-pattern is set by every
    match; reading it cannot give [undefined], and the [TypeError] branches
    below are only there to make the functions total. *)
Definition parseSelect (sql : str) : result ParsedQuery :=
  match exec selectPattern sql with
  | None => Err InvalidSelect
  | Some (_, m) =>
      match cap 1 m, cap 2 m with
      | Some fieldsStr, Some entity =>
          let whereClause := cap 3 m in
          let orderByClause := cap 4 m in
          let limitStr := cap 5 m in
          Ok {| operation := SELECT;
                entity := entity;
                fields := Some (map trim (split "," fieldsStr));
                filter := if truthy whereClause
                          then option_map translateWhereClause whereClause
                          else None;
                orderBy := if truthy orderByClause
                           then option_map parseOrderBy orderByClause
                           else None;
                limit := if truthy limitStr
                         then match limitStr with
                              | Some l => parseInt10 l
                              | None => None
                              end
                         else None;
                values := None |}
      | _, _ => Err TypeError
      end
  end.

(** [columns.forEach((col, index) => valuesObj[col] = values[index])]. *)
Fixpoint bindColumns (o : jsobject) (columns : list str) (index : nat)
    (vals : list jsvalue) : jsobject :=
  match columns with
  | [] => o
  | col :: rest =>
      bindColumns (obj_set o col (nth index vals VUndefined)) rest (S index) vals
  end.

Definition insertColumns (columnsStr : str) : list str :=
  map trim (split "," columnsStr).

Definition insertValues (valuesStr : str) : list jsvalue :=
  map (fun v => literal (trim v)) (split "," valuesStr).

Definition parseInsert (sql : str) : result ParsedQuery :=
  match exec insertPattern sql with
  | None => Err InvalidInsert
  | Some (_, m) =>
      match cap 1 m, cap 2 m, cap 3 m with
      | Some entity, Some columnsStr, Some valuesStr =>
          Ok {| operation := INSERT;
                entity := entity;
                fields := None; filter := None; orderBy := None; limit := None;
                values := Some (bindColumns empty_object (insertColumns columnsStr)
                                            0 (insertValues valuesStr)) |}
      | _, _, _ => Err TypeError
      end
  end.

(** The callback of [setClause.split(',').forEach]: with no [=] in the
    assignment [valueStr] is [undefined] and [valueStr.startsWith] throws. *)
Definition assign (setValues : jsobject) (assignment : str) : result jsobject :=
  match map trim (split "=" assignment) with
  | column :: valueStr :: _ => Ok (obj_set setValues column (literal valueStr))
  | _ => Err TypeError
  end.

Fixpoint parseSet (setValues : jsobject) (assignments : list str)
    : result jsobject :=
  match assignments with
  | [] => Ok setValues
  | a :: rest => bind (assign setValues a) (fun o => parseSet o rest)
  end.

Definition parseUpdate (sql : str) : result ParsedQuery :=
  match exec updatePattern sql with
  | None => Err InvalidUpdate
  | Some (_, m) =>
      match cap 1 m, cap 2 m with
      | Some entity, Some setClause =>
          let whereClause := cap 3 m in
          bind (parseSet empty_object (split "," setClause)) (fun setValues =>
          Ok {| operation := UPDATE;
                entity := entity;
                fields := None;
                filter := if truthy whereClause
                          then option_map translateWhereClause whereClause
                          else None;
                orderBy := None; limit := None;
                values := Some setValues |})
      | _, _ => Err TypeError
      end
  end.

Definition parseDelete (sql : str) : result ParsedQuery :=
  match exec deletePattern sql with
  | None => Err InvalidDelete
  | Some (_, m) =>
      match cap 1 m with
      | Some entity =>
          let whereClause := cap 2 m in
          Ok {| operation := DELETE;
                entity := entity;
                fields := None;
                filter := if truthy whereClause
                          then option_map translateWhereClause whereClause
                          else None;
                orderBy := None; limit := None; values := None |}
      | None => Err TypeError
      end
  end.

(** The statement as [parse] hands it to the grammars. *)
Definition terminated (sql : str) : str :=
  let sql := trim sql in
  if endsWith sql (js ";") then sql else sql ++ js ";".

Definition parse (sql : str) : result ParsedQuery :=
  let sql := terminated sql in
  if startsWith (toUpperCase sql) (js "SELECT") then parseSelect sql
  else if startsWith (toUpperCase sql) (js "INSERT") then parseInsert sql
  else if startsWith (toUpperCase sql) (js "UPDATE") then parseUpdate sql
  else if startsWith (toUpperCase sql) (js "DELETE") then parseDelete sql
  else Err UnsupportedOperation.

End SqlParser.

(** ** URLSearchParams

    [params.append(k, v)] adds a pair at the end; [params.toString()] is the
    application/x-www-form-urlencoded serialisation: the bytes of the UTF-8
    encoding are kept when they are ASCII letters, digits or one of [*-._],
    a space becomes [+], every other byte becomes [%XX]. *)

Definition params_t := list (str * str).

Definition append (params : params_t) (k v : str) : params_t :=
  params ++ [(k, v)].

Definition hex_digit (n : nat) : ascii :=
  nth n (js "0123456789ABCDEF") "0"%char.

Definition percent (b : nat) : str :=
  ["%"%char; hex_digit (b / 16); hex_digit (b mod 16)].

Definition utf8 (c : ascii) : list nat :=
  if code c <? 128 then [code c]
  else [192 + code c / 64; 128 + code c mod 64].

Definition form_byte (b : nat) : str :=
  let c := ascii_of_nat b in
  if b =? 32 then js "+"
  else if (b <? 128)
          && (is_upper c || is_lower c || is_digit c || one_of (js "*-._") c)
  then [c]
  else percent b.

Definition formEncode (s : str) : str :=
  flat_map (fun c => flat_map form_byte (utf8 c)) s.

Definition params_toString (params : params_t) : str :=
  join (js "&")
       (map (fun kv => formEncode (fst kv) ++ js "=" ++ formEncode (snd kv)) params).

(** What [fetch] is called with.  [body] holds the object that the source
    hands to [JSON.stringify]; [None] is the [null] body. *)
Record request : Type := {
  method : str;
  url : str;
  body : option jsobject
}.

(** The four conditional [append]s shared by every SELECT builder. *)
Definition selectParams (q : ParsedQuery) : params_t :=
  let params := [] in
  let params :=
    match fields q with
    | Some (f :: fs) => append params (js "$select") (join (js ",") (f :: fs))
    | _ => params
    end in
  let params :=
    match filter q with
    | Some (c :: f) => append params (js "$filter") (c :: f)
    | _ => params
    end in
  let params :=
    match orderBy q with
    | Some (i :: items) =>
        append params (js "$orderby")
               (join (js ",")
                     (map (fun item => field item ++ js " " ++ direction item)
                          (i :: items)))
    | _ => params
    end in
  match limit q with
  | Some l => if number_truthy l
              then append params (js "$top") (number_toString l)
              else params
  | None => params
  end.

Definition withQuery (url : str) (params : params_t) : str :=
  let queryString := params_toString params in
  match queryString with
  | [] => url
  | _ :: _ => url ++ js "?" ++ queryString
  end.

(** ** query-tool.ts *)

Module QueryToolController.

(** /(\w+id)\s+eq\s+'([^']+)'/i *)
Definition idPattern : regex :=
  cat [Group 1 (Seq word_plus (LitCI (js "id"))); ws_plus; LitCI (js "eq");
       ws_plus; Chr (is_char "'");
       Group 2 (Plus true (Chr (fun c => negb (is_char "'" c))));
       Chr (is_char "'")].

(** [idValue.replace(/[{}]/g, '')] *)
Definition formatId (idValue : str) : str :=
  replace_all (Chr (one_of (js "{}"))) [] idValue.

Definition collectionUrl (orgUrl : str) (q : ParsedQuery) : str :=
  orgUrl ++ js "/api/data/v9.2/" ++ entity q.

(** The branch shared, word for word, by UPDATE and DELETE.  Group 2 is set
    by every match of [idPattern] (see [idPattern_value]). *)
Definition targetUrl (url f : str) : str :=
  match exec idPattern f with
  | Some (_, idMatch) =>
      let idValue := match cap 2 idMatch with Some v => v | None => [] end in
      url ++ js "(" ++ formatId idValue ++ js ")"
  | None => url ++ js "?$filter=" ++ f
  end.

Definition buildQueryUrl (orgUrl : str) (parsedQuery : ParsedQuery) : str :=
  let url := collectionUrl orgUrl parsedQuery in
  match operation parsedQuery, filter parsedQuery with
  | UPDATE, Some (c :: f) => targetUrl url (c :: f)
  | DELETE, Some (c :: f) => targetUrl url (c :: f)
  | SELECT, _ => withQuery url (selectParams parsedQuery)
  | _, _ => url
  end.

(** The part of [executeQuery] between [parse] and [fetch] (the function
    [toRequest] of the specification): the URL, then the method and the
    body by operation.  [orgUrl] is the stored URL already cut down to
    protocol and host. *)
Definition toRequest (orgUrl : str) (parsedQuery : ParsedQuery) : request :=
  let url := buildQueryUrl orgUrl parsedQuery in
  match operation parsedQuery with
  | SELECT => {| method := js "GET"; url := url; body := None |}
  | INSERT => {| method := js "POST"; url := url; body := values parsedQuery |}
  | UPDATE => {| method := js "PATCH"; url := url; body := values parsedQuery |}
  | DELETE => {| method := js "DELETE"; url := url; body := None |}
  end.

(** [Ok r]: [fetch] is called with [r]; [Err e]: nothing is sent and the
    status line shows the message.  [orgUrl] is the URL found in the
    storage, the empty string when there is none; a stored URL is cut down
    to protocol and host (and stays as it is when it cannot be read as a
    URL), which leaves it non-empty, so the test for the missing URL is
    the same before and after and [toRequest] gets the URL as cut down. *)
Definition OrgUrlNotFound : error :=
  Error (js "Organization URL not found. Please navigate to Dynamics CRM first.").

Definition executeQuery (orgUrl text : str) : result request :=
  let query := trim text in
  match query with
  | [] => Err (Error (js "Please enter a SQL query"))
  | _ :: _ =>
      bind (SqlParser.parse query)
           (fun parsedQuery =>
              match orgUrl with
              | [] => Err OrgUrlNotFound
              | _ :: _ => Ok (toRequest orgUrl parsedQuery)
              end)
  end.

End QueryToolController.

(** ** dynamics-api.ts

    Each operation up to the first request it sends. *)

Module DynamicsApi.

Definition apiVersion : str := js "9.2".

Definition entityUrl (clientUrl : str) (entity : str) : str :=
  clientUrl ++ js "/api/data/v" ++ apiVersion ++ js "/" ++ entity.

Definition executeRetrieve (clientUrl : str) (query : ParsedQuery) : request :=
  {| method := js "GET";
     url := withQuery (entityUrl clientUrl (entity query)) (selectParams query);
     body := None |}.

Definition executeCreate (clientUrl : str) (query : ParsedQuery) : result request :=
  match values query with
  | None => Err (Error (js "No values provided for INSERT operation"))
  | Some v =>
      Ok {| method := js "POST";
            url := entityUrl clientUrl (entity query);
            body := Some v |}
  end.

(** The query that [executeUpdate] and [executeDelete] retrieve first. *)
Definition recordsQuery (query : ParsedQuery) : ParsedQuery :=
  {| operation := SELECT; entity := entity query; fields := None;
     filter := filter query; orderBy := None; limit := None; values := None |}.

Definition executeUpdate (clientUrl : str) (query : ParsedQuery) : result request :=
  match values query with
  | None => Err (Error (js "No values provided for UPDATE operation"))
  | Some _ =>
      if negb (truthy (filter query))
      then Err (Error (js "Filter (WHERE clause) is required for UPDATE operations"))
      else Ok (executeRetrieve clientUrl (recordsQuery query))
  end.

Definition executeDelete (clientUrl : str) (query : ParsedQuery) : result request :=
  if negb (truthy (filter query))
  then Err (Error (js "Filter (WHERE clause) is required for DELETE operations"))
  else Ok (executeRetrieve clientUrl (recordsQuery query)).

End DynamicsApi.

(** [executeQuery] of [DynamicsApi]: the client URL must have been set by
    [initialize]; an error of the operation is thrown again with a prefix.
    (The operations above raise no [TypeError], whose message the model
    does not carry: that case cannot arise and is left as it is.) *)
Definition DynamicsApi_rethrow (r : result request) : result request :=
  match r with
  | Err (Error message) => Err (Error (js "Dynamics API error: " ++ message))
  | _ => r
  end.

Definition DynamicsApi_executeQuery (clientUrl : option str)
    (parsedQuery : ParsedQuery) : result request :=
  match clientUrl with
  | None =>
      Err (Error (js "Dynamics API not initialized. Please navigate to a Dynamics CRM instance first."))
  | Some u =>
      DynamicsApi_rethrow
        match operation parsedQuery with
        | SELECT => Ok (DynamicsApi.executeRetrieve u parsedQuery)
        | INSERT => DynamicsApi.executeCreate u parsedQuery
        | UPDATE => DynamicsApi.executeUpdate u parsedQuery
        | DELETE => DynamicsApi.executeDelete u parsedQuery
        end
  end.

(** [s.includes(p)]. *)
Fixpoint includes (s p : str) : bool :=
  startsWith s p ||
  match s with
  | [] => false
  | _ :: s' => includes s' p
  end.

(** ** content.js and background.js: is this a Dynamics page? *)

Module ContentScript.

(** [isDynamicsCrmPage], on [window.location.hostname]. *)
Definition isDynamicsCrmPage (hostname : str) : bool :=
  includes hostname (js "dynamics.com") ||
  includes hostname (js "crm.dynamics.com").

End ContentScript.

(** ** popup.ts and the pending query of query-tool.ts *)

Module Popup.

(** [executeQuickQuery] up to the [pendingQuery] that it stores: its
    [query] and [parsedQuery]; [executing] is [true] and there are no
    [results]. *)
Definition executeQuickQuery (text : str) : result (str * ParsedQuery) :=
  let query := trim text in
  match query with
  | [] => Err (Error (js "Please enter a SQL query"))
  | _ :: _ =>
      bind (SqlParser.parse query) (fun parsedQuery => Ok (query, parsedQuery))
  end.

End Popup.

(** [checkPendingQuery] of the query tool on a pending query without
    [results]: the stored text goes into the text area and [executeQuery]
    runs when [executing] is set. *)
Definition QueryToolController_checkPendingQuery (orgUrl : str)
    (pendingQuery : option (str * bool)) : option (result request) :=
  match pendingQuery with
  | Some (query, true) => Some (QueryToolController.executeQuery orgUrl query)
  | _ => None
  end.

Module Background.

Definition matches (r : regex) (s : str) : bool :=
  match exec r s with
  | Some _ => true
  | None => false
  end.

(** The test of the [onUpdated] listener on [tab.url]:
    [tab.url.match(/dynamics\.com/) || tab.url.match(/crm\.dynamics\.com/)]. *)
Definition isDynamicsUrl (tabUrl : str) : bool :=
  matches (Lit (js "dynamics.com")) tabUrl ||
  matches (Lit (js "crm.dynamics.com")) tabUrl.

End Background.

(** ** results-handler.ts

    A cell is any JSON value.  The handler only asks whether it is [null]
    or [undefined] and otherwise takes [String(cell)]: a cell is kept as
    that text, [None] for [null] and [undefined].  A record lists its own
    keys in the order of [Object.keys].  [item[col]] for a key that the
    record does not own is [undefined], but for the members of
    [Object.prototype]: what those answer is the parameter [inherited]. *)

Module ResultsHandler.

Definition cell := option str.
Definition record := list (str * cell).

Record FormattedResult (T : Type) : Type := {
  columns : list str;
  rows : list (list cell);
  totalCount : nat;
  executionTime : T
}.

Fixpoint own (item : record) (col : str) : option cell :=
  match item with
  | [] => None
  | (k, v) :: rest => if str_eqb k col then Some v else own rest col
  end.

Definition get (inherited : str -> cell) (item : record) (col : str) : cell :=
  match own item col with
  | Some v => v
  | None => inherited col
  end.

Definition formatResults (T : Type) (inherited : str -> cell)
    (data : option (list record)) (executionTime : T) : FormattedResult T :=
  match data with
  | Some (first :: rest) =>
      let columns := map fst first in
      {| columns := columns;
         rows := map (fun item => map (get inherited item) columns) (first :: rest);
         totalCount := length (first :: rest);
         executionTime := executionTime |}
  | _ => {| columns := []; rows := []; totalCount := 0;
            executionTime := executionTime |}
  end.

Definition dquote : ascii := ascii_of_nat 34.
Definition newline : ascii := ascii_of_nat 10.

(** The callback of [row.map] in [exportToCsv]. *)
Definition csvCell (c : cell) : str :=
  match c with
  | None => []
  | Some text =>
      let cellStr := replace_all (Chr (is_char dquote)) [dquote; dquote] text in
      if includes cellStr (js ",") || includes cellStr [newline]
         || includes cellStr [dquote]
      then [dquote] ++ cellStr ++ [dquote]
      else cellStr
  end.

Definition exportToCsv (T : Type) (formattedResult : FormattedResult T) : str :=
  match columns formattedResult with
  | [] => []
  | _ :: _ =>
      fold_left (fun csv row => csv ++ join (js ",") (map csvCell row) ++ [newline])
                (rows formattedResult)
                (join (js ",") (columns formattedResult) ++ [newline])
  end.

End ResultsHandler.

(** ** query-tool.ts: the pages of the result table

    [currentPage] starts at 1 and [pageSize] is 50.  [Math.ceil(n / 50)] is
    written with the integer division, which agrees with it for every
    array length. *)

Module ResultPages.

Definition pageSize : Z := 50.

Definition totalPages (totalCount : nat) : Z :=
  (Z.of_nat totalCount + pageSize - 1) / pageSize.

(** The rows that [displayResultPage] puts into the table: those with
    index from [startIndex] up to [endIndex].  A negative index reads
    [undefined], and [row.forEach] throws. *)
Definition displayResultPage (A : Type) (currentPage : Z) (rows : list A)
    : result (list A) :=
  let startIndex := ((currentPage - 1) * pageSize)%Z in
  let endIndex := Z.min (startIndex + pageSize) (Z.of_nat (length rows)) in
  if (startIndex <? endIndex)%Z then
    if (startIndex <? 0)%Z then Err TypeError
    else Ok (firstn (Z.to_nat (endIndex - startIndex))
                    (skipn (Z.to_nat startIndex) rows))
  else Ok [].

Definition goToPreviousPage (currentPage : Z) : Z :=
  if (1 <? currentPage)%Z then (currentPage - 1)%Z else currentPage.

Definition goToNextPage (totalCount : nat) (currentPage : Z) : Z :=
  if (currentPage <? totalPages totalCount)%Z then (currentPage + 1)%Z
  else currentPage.

End ResultPages.

(** ** record-inspector.ts *)

Module RecordInspector.

Definition commonEntities : list (str * str) :=
  [ (js "account", js "accounts");
    (js "contact", js "contacts");
    (js "lead", js "leads");
    (js "opportunity", js "opportunities");
    (js "systemuser", js "systemusers");
    (js "team", js "teams");
    (js "businessunit", js "businessunits");
    (js "incident", js "incidents");
    (js "annotation", js "annotations");
    (js "email", js "emails");
    (js "task", js "tasks");
    (js "appointment", js "appointments");
    (js "activitypointer", js "activitypointers");
    (js "phonecall", js "phonecalls");
    (js "letter", js "letters");
    (js "fax", js "faxes");
    (js "recurringappointmentmaster", js "recurringappointmentmasters");
    (js "socialactivity", js "socialactivities");
    (js "workflow", js "workflows");
    (js "processsession", js "processsessions");
    (js "queue", js "queues");
    (js "queueitem", js "queueitems") ].

Fixpoint entry (k : str) (table : list (str * str)) : option str :=
  match table with
  | [] => None
  | (k', v) :: rest => if str_eqb k' k then Some v else entry k rest
  end.

(** [commonEntities] is an object literal: besides its own entries,
    [commonEntities[k]] finds the members of [Object.prototype].  Two of
    them have a name that a lower-cased string can spell; both are truthy
    and neither is a string. *)
Definition prototypeMembers : list str := [js "constructor"; js "__proto__"].

Inductive plural_t : Type :=
| PluralName (name : str)
| PrototypeMember (key : str).

Definition getPluralEntityName (entityName : str) : plural_t :=
  let k := toLowerCase entityName in
  match entry k commonEntities with
  | Some p => PluralName p
  | None =>
      if existsb (str_eqb k) prototypeMembers then PrototypeMember k
      else PluralName (entityName ++ js "s")
  end.

End RecordInspector.

(** ** The wording of the specification

    The notions that the specification uses and the code does not define. *)

(** [s] begins with the keyword [kw], each letter in either case. *)
Fixpoint begins_ci (kw s : str) : bool :=
  match kw, s with
  | [], _ => true
  | k :: kw', c :: s' =>
      (Ascii.eqb c k || Ascii.eqb c (lower_char k)) && begins_ci kw' s'
  | _ :: _, [] => false
  end.

(** The first token of a statement: what stands before the first white
    space, leading white space left out. *)
Fixpoint upto_space (s : str) : str :=
  match s with
  | c :: s' => if is_space c then [] else c :: upto_space s'
  | [] => []
  end.

Definition first_token (s : str) : str := upto_space (trimStart s).

Definition keywords : list str :=
  [js "SELECT"; js "INSERT"; js "UPDATE"; js "DELETE"].

Definition is_keyword (t : str) : bool :=
  existsb (str_eqb (toUpperCase t)) keywords.

(** The text before and behind the first occurrence of a character. *)
Fixpoint before_first (a : ascii) (s : str) : str :=
  match s with
  | c :: s' => if Ascii.eqb c a then [] else c :: before_first a s'
  | [] => []
  end.

Fixpoint after_first (a : ascii) (s : str) : str :=
  match s with
  | c :: s' => if Ascii.eqb c a then s' else after_first a s'
  | [] => []
  end.

(** An assignment of a SET clause as the code reads it: the column stands
    before the first [=], the value between the first [=] and the next. *)
Definition assignedColumn (assignment : str) : str :=
  trim (before_first "=" assignment).

Definition assignedValue (assignment : str) : str :=
  trim (before_first "=" (after_first "=" assignment)).

(** The identifier [[A-Za-z_][A-Za-z0-9_]*] of the data model. *)
Definition is_identifier (e : str) : bool :=
  match e with
  | c :: e' => (is_upper c || is_lower c || (code c =? 95)) && forallb is_word e'
  | [] => false
  end.

(** [text] reads [<word>id eq '<value>']: a word, [id] and [eq] in any
    case, white space around [eq], a quoted value free of quotes. *)
Inductive IdClause (value : str) : str -> Prop :=
| id_clause (word id ws1 eq ws2 : str) :
    word <> [] -> forallb is_word word = true ->
    toUpperCase id = js "ID" ->
    ws1 <> [] -> forallb is_space ws1 = true ->
    toUpperCase eq = js "EQ" ->
    ws2 <> [] -> forallb is_space ws2 = true ->
    value <> [] -> forallb (fun c => negb (is_char "'" c)) value = true ->
    IdClause value
      (word ++ id ++ ws1 ++ eq ++ ws2 ++ js "'" ++ value ++ js "'").

Definition strip_braces (value : str) : str :=
  List.filter (fun c => negb (one_of (js "{}") c)) value.

(** [params.get(k)]: the first value appended under [k]. *)
Fixpoint getParam (k : str) (params : params_t) : option str :=
  match params with
  | [] => None
  | (k', v) :: rest => if str_eqb k' k then Some v else getParam k rest
  end.

(** The keyword of an operation. *)
Definition keyword (op : operation_t) : str :=
  match op with
  | SELECT => js "SELECT"
  | INSERT => js "INSERT"
  | UPDATE => js "UPDATE"
  | DELETE => js "DELETE"
  end.


(** Every match of [r] sets group [i]. *)
Fixpoint sets (i : nat) (r : regex) : Prop :=
  match r with
  | Group j a => j = i \/ sets i a
  | Seq a b => sets i a \/ sets i b
  | Alt a b => sets i a /\ sets i b
  | Eps | Chr _ | Opt _ | Star _ _ => False
  end.



(** The rows of page [currentPage]; nothing when the page cannot be drawn. *)
Definition pageOf (A : Type) (currentPage : Z) (rows : list A) : list A :=
  match ResultPages.displayResultPage currentPage rows with
  | Ok page => page
  | Err _ => []
  end.

(** * Properties *)

Ltac group_is_tac :=
  simpl; repeat split; intros; try discriminate; reflexivity.

(** ** Strings *)

Lemma str_eqb_eq (a b : str) : str_eqb a b = true <-> a = b.
Proof.
  revert b; induction a as [|x a IH]; intros [|y b]; simpl;
    try (split; [discriminate | discriminate]); try tauto.
  rewrite andb_true_iff, Ascii.eqb_eq, IH.
  split; [intros [-> ->]; reflexivity | intros H; inversion H; auto].
Qed.

Lemma str_eqb_refl (a : str) : str_eqb a a = true.
Proof. apply str_eqb_eq; reflexivity. Qed.

Lemma str_eqb_neq (a b : str) : str_eqb a b = false <-> a <> b.
Proof.
  split.
  - intros H E; apply str_eqb_eq in E; congruence.
  - intros H; destruct (str_eqb a b) eqn:E; [apply str_eqb_eq in E; contradiction | reflexivity].
Qed.

(** ** The matcher finds exactly the matches of the pattern *)

Section MatcherFacts.

Variable R : Type.

Lemma orElse_Some (x y : option R) v :
  orElse x y = Some v -> x = Some v \/ (x = None /\ y = Some v).
Proof. destruct x; simpl; intros H; [left | right]; auto. Qed.

Lemma orElse_l (x y : option R) : x <> None -> orElse x y <> None.
Proof. destruct x; simpl; congruence. Qed.

Lemma orElse_r (x y : option R) : y <> None -> orElse x y <> None.
Proof. destruct x; simpl; congruence. Qed.

Lemma progress_Some s (k : cont R) s1 c1 v :
  progress s k s1 c1 = Some v -> length s1 < length s /\ k s1 c1 = Some v.
Proof.
  unfold progress; destruct (length s1 <? length s) eqn:E; [|discriminate].
  apply Nat.ltb_lt in E; auto.
Qed.

Lemma progress_lt s (k : cont R) s1 c1 :
  length s1 < length s -> progress s k s1 c1 = k s1 c1.
Proof.
  intros H; unfold progress; apply Nat.ltb_lt in H; rewrite H; reflexivity.
Qed.

Lemma star_loop_sound (m : matcher R) g a (k : cont R) :
  (forall s c k' v, m s c k' = Some v ->
     exists s1 c1, Matches a s c s1 c1 /\ k' s1 c1 = Some v) ->
  forall n s c v, star_loop m g k n s c = Some v ->
  exists s1 c1, Matches (Star g a) s c s1 c1 /\ k s1 c1 = Some v.
Proof.
  intros Hm; induction n as [|n IH]; intros s c v H; simpl in H.
  - exists s, c; split; [constructor|].
    destruct g; simpl in H; [assumption|].
    apply orElse_Some in H; destruct H as [H|[_ H]]; [assumption | discriminate].
  - assert (Hmore : forall v', m s c (progress s (star_loop m g k n)) = Some v' ->
              exists s1 c1, Matches (Star g a) s c s1 c1 /\ k s1 c1 = Some v').
    { intros v' Hv. apply Hm in Hv; destruct Hv as (s1 & c1 & Ha & Hp).
      apply progress_Some in Hp; destruct Hp as [Hlt Hl].
      apply IH in Hl; destruct Hl as (s2 & c2 & Hs & Hk).
      exists s2, c2; split; [eapply M_StarStep; eauto | assumption]. }
    destruct g; apply orElse_Some in H; destruct H as [H|[_ H]]; auto;
      exists s, c; split; auto; constructor.
Qed.

Lemma rmatch_sound r : forall s c (k : cont R) v,
  rmatch r s c k = Some v ->
  exists s1 c1, Matches r s c s1 c1 /\ k s1 c1 = Some v.
Proof.
  induction r as [|p|a IHa b IHb|a IHa b IHb|a IHa|g a IHa|i a IHa];
    intros s c k v H; simpl in H.
  - exists s, c; split; [constructor | assumption].
  - destruct s as [|x s]; [discriminate|].
    destruct (p x) eqn:E; [|discriminate].
    exists s, c; split; [constructor; assumption | assumption].
  - apply IHa in H; destruct H as (s1 & c1 & Ha & H).
    apply IHb in H; destruct H as (s2 & c2 & Hb & H).
    exists s2, c2; split; [econstructor; eauto | assumption].
  - apply orElse_Some in H; destruct H as [H|[_ H]].
    + apply IHa in H; destruct H as (s1 & c1 & Ha & H).
      exists s1, c1; split; [apply M_AltL; assumption | assumption].
    + apply IHb in H; destruct H as (s1 & c1 & Hb & H).
      exists s1, c1; split; [apply M_AltR; assumption | assumption].
  - apply orElse_Some in H; destruct H as [H|[_ H]].
    + apply IHa in H; destruct H as (s1 & c1 & Ha & H).
      apply progress_Some in H; destruct H as [Hlt H].
      exists s1, c1; split; [apply M_OptTake; assumption | assumption].
    + exists s, c; split; [constructor | assumption].
  - eapply star_loop_sound; eauto.
  - apply IHa in H; destruct H as (s1 & c1 & Ha & H).
    eexists _, _; split; [apply M_Group; eassumption | assumption].
Qed.

Lemma accepts_rmatch r s c (k : cont R) :
  accepts r s c k -> rmatch r s c k <> None.
Proof.
  destruct r; simpl; auto.
Qed.

Lemma rmatch_accepts r s c s1 c1 :
  Matches r s c s1 c1 -> forall k : cont R, k s1 c1 <> None -> accepts r s c k.
Proof.
  induction 1 as [s c|p x s c Hp|a b s c s1 c1 s2 c2 Ha IHa Hb IHb
                 |a b s c s1 c1 Ha IHa|a b s c s1 c1 Hb IHb
                 |a s c|a s c s1 c1 Ha IHa Hlt
                 |g a s c|g a s c s1 c1 s2 c2 Ha IHa Hlt Hs IHs
                 |i a s c s1 c1 Ha IHa]; intros k Hk; simpl.
  - assumption.
  - rewrite Hp; assumption.
  - apply accepts_rmatch, IHa. apply accepts_rmatch, IHb. assumption.
  - apply orElse_l, accepts_rmatch, IHa; assumption.
  - apply orElse_r, accepts_rmatch, IHb; assumption.
  - apply orElse_r; assumption.
  - apply orElse_l, accepts_rmatch, IHa. rewrite progress_lt; assumption.
  - intros n _. destruct n; simpl; destruct g;
      solve [assumption | apply orElse_r; assumption | apply orElse_l; assumption].
  - intros n Hn. destruct n as [|n]; [lia|]. simpl.
    assert (Hmore : rmatch a s c (progress s (star_loop (rmatch a) g k n)) <> None).
    { apply accepts_rmatch, IHa. rewrite progress_lt by assumption.
      apply (IHs k Hk). lia. }
    destruct g; [apply orElse_l; assumption | apply orElse_r; assumption].
  - apply accepts_rmatch, IHa. assumption.
Qed.

Lemma rmatch_complete r s c s1 c1 (k : cont R) :
  Matches r s c s1 c1 -> k s1 c1 <> None -> rmatch r s c k <> None.
Proof. intros H Hk; eapply accepts_rmatch, rmatch_accepts; eauto. Qed.

End MatcherFacts.

(** ** What a match consumes and captures *)

Lemma consumed_app (w s1 : str) : consumed (w ++ s1) s1 = w.
Proof.
  unfold consumed. rewrite length_app.
  replace (length w + length s1 - length s1) with (length w) by lia.
  rewrite firstn_app, Nat.sub_diag, firstn_all. simpl. apply app_nil_r.
Qed.

Lemma Matches_suffix r s c s1 c1 :
  Matches r s c s1 c1 -> exists w, s = w ++ s1.
Proof.
  induction 1; try (exists []; reflexivity); try assumption.
  - exists [x]; reflexivity.
  - destruct IHMatches1 as [w1 ->], IHMatches2 as [w2 ->].
    exists (w1 ++ w2); rewrite app_assoc; reflexivity.
  - destruct IHMatches1 as [w1 ->], IHMatches2 as [w2 ->].
    exists (w1 ++ w2); rewrite app_assoc; reflexivity.
Qed.

Lemma Matches_frame i r s c s1 c1 :
  Matches r s c s1 c1 -> ~ In i (groups r) -> cap i c1 = cap i c.
Proof.
  induction 1; simpl; intros Hi; try reflexivity; auto.
  - rewrite in_app_iff in Hi. rewrite IHMatches2, IHMatches1; tauto.
  - rewrite in_app_iff in Hi. apply IHMatches; tauto.
  - rewrite in_app_iff in Hi. apply IHMatches; tauto.
  - rewrite IHMatches2, IHMatches1; auto.
  - destruct (Nat.eqb i0 i) eqn:E.
    + apply Nat.eqb_eq in E; tauto.
    + apply IHMatches; tauto.
Qed.

(** A group that is [(body)] wherever it occurs only ever holds what
    [body] consumed. *)
Lemma group_is_sound i body (P : str -> Prop) :
  (forall s c s1 c1, Matches body s c s1 c1 -> P (consumed s s1)) ->
  forall r s c s1 c1, Matches r s c s1 c1 -> group_is i body r ->
  (forall w, cap i c = Some w -> P w) ->
  forall w, cap i c1 = Some w -> P w.
Proof.
  intros Hbody. induction 1; simpl; intros Hg Hc; auto;
    try solve [destruct Hg; eauto | eauto].
  destruct Hg as [Hj Hg]. intros w.
  destruct (Nat.eqb i0 i) eqn:E.
  - apply Nat.eqb_eq in E. specialize (Hj E); subst a.
    intros [= <-]. eapply Hbody; eassumption.
  - apply IHMatches; assumption.
Qed.

Lemma Matches_star_chr g p s c s1 c1 :
  Matches (Star g (Chr p)) s c s1 c1 ->
  c1 = c /\ exists w, s = w ++ s1 /\ forallb p w = true.
Proof.
  remember (Star g (Chr p)) as r eqn:Er. intros H; revert Er.
  induction H; try discriminate; intros [= -> ->].
  - split; [reflexivity | exists []; auto].
  - inversion H; subst.
    destruct (IHMatches2 eq_refl) as [-> (w & -> & Hw)].
    split; [reflexivity|]. exists (x :: w); simpl.
    match goal with Hx : p x = true |- _ => rewrite Hx end. auto.
Qed.

Lemma Matches_plus_chr g p s c s1 c1 :
  Matches (Plus g (Chr p)) s c s1 c1 ->
  c1 = c /\ exists w, s = w ++ s1 /\ w <> [] /\ forallb p w = true.
Proof.
  unfold Plus; intros H; inversion H; subst.
  match goal with Hc : Matches (Chr p) _ _ _ _ |- _ => inversion Hc; subst end.
  match goal with Hs : Matches (Star g _) _ _ _ _ |- _ =>
    apply Matches_star_chr in Hs; destruct Hs as [-> (w & -> & Hw)] end.
  split; [reflexivity|]. exists (x :: w); simpl.
  match goal with Hx : p x = true |- _ => rewrite Hx end.
  repeat split; auto; discriminate.
Qed.

Lemma star_chr_intro g p w s1 c :
  forallb p w = true -> Matches (Star g (Chr p)) (w ++ s1) c s1 c.
Proof.
  induction w as [|x w IH]; simpl; intros H; [constructor|].
  apply andb_true_iff in H; destruct H as [Hx Hw].
  eapply M_StarStep; [constructor; exact Hx | simpl; lia | auto].
Qed.

Lemma plus_chr_intro g p w s1 c :
  w <> [] -> forallb p w = true -> Matches (Plus g (Chr p)) (w ++ s1) c s1 c.
Proof.
  destruct w as [|x w]; [congruence|]; simpl; intros _ H.
  apply andb_true_iff in H; destruct H as [Hx Hw].
  unfold Plus; econstructor; [constructor; exact Hx | apply star_chr_intro; exact Hw].
Qed.

Lemma Matches_LitCI l : forall s c s1 c1,
  Matches (LitCI l) s c s1 c1 ->
  c1 = c /\ exists w, s = w ++ s1 /\ toUpperCase w = toUpperCase l.
Proof.
  induction l as [|a l IH]; simpl; intros s c s1 c1 H; inversion H; subst.
  - split; [reflexivity | exists []; auto].
  - match goal with Hc : Matches (Chr _) _ _ _ _ |- _ => inversion Hc; subst end.
    match goal with Hl : Matches (LitCI l) _ _ _ _ |- _ =>
      apply IH in Hl; destruct Hl as [-> (w & -> & Hw)] end.
    split; [reflexivity|]. exists (x :: w); simpl; split; [reflexivity|].
    match goal with Hx : is_char_ci a x = true |- _ =>
      unfold is_char_ci in Hx; apply Ascii.eqb_eq in Hx; rewrite Hx end.
    f_equal; exact Hw.
Qed.

Lemma LitCI_intro l : forall w s1 c,
  toUpperCase w = toUpperCase l -> Matches (LitCI l) (w ++ s1) c s1 c.
Proof.
  induction l as [|a l IH]; intros [|x w] s1 c H; simpl in *; try discriminate.
  - constructor.
  - injection H as Hx Hw. econstructor.
    + constructor. unfold is_char_ci. rewrite Hx. apply Ascii.eqb_refl.
    + apply IH; assumption.
Qed.

(** ** [match] and [exec] *)

Lemma match_at_sound r s rest m :
  match_at r s = Some (rest, m) -> Matches r s [] rest m.
Proof.
  unfold match_at; intros H. apply rmatch_sound in H.
  destruct H as (s1 & c1 & Hm & [= <- <-]); assumption.
Qed.

Lemma match_at_complete r s s1 c1 :
  Matches r s [] s1 c1 -> match_at r s <> None.
Proof.
  intros H; unfold match_at; eapply rmatch_complete; [eassumption | discriminate].
Qed.

Lemma exec_sound r s rest m :
  exec r s = Some (rest, m) ->
  exists pre suf, s = pre ++ suf /\ Matches r suf [] rest m.
Proof.
  induction s as [|x s IH]; simpl; destruct (match_at r _) as [[rest' m']|] eqn:E.
  - intros [= <- <-]. exists [], []; split; [reflexivity | apply match_at_sound; assumption].
  - discriminate.
  - intros [= <- <-]. exists [], (x :: s); split; [reflexivity | apply match_at_sound; assumption].
  - intros H; apply IH in H; destruct H as (pre & suf & -> & H).
    exists (x :: pre), suf; split; [reflexivity | assumption].
Qed.

Lemma exec_complete r pre : forall suf s1 c1,
  Matches r suf [] s1 c1 -> exec r (pre ++ suf) <> None.
Proof.
  assert (Hhere : forall s s1 c1, Matches r s [] s1 c1 -> exec r s <> None).
  { intros s s1 c1 H. apply match_at_complete in H.
    destruct s; simpl; destruct (match_at r _); congruence. }
  induction pre as [|x pre IH]; intros suf s1 c1 H; simpl.
  - eapply Hhere; eassumption.
  - destruct (match_at r (x :: pre ++ suf)); [discriminate | eapply IH; eassumption].
Qed.

(** ** The fuel of the loops is enough

    A loop of the matcher, [replace] and [split] carry a counter that makes
    them structural.  The counter they start with is never used up: any
    larger one gives the same result. *)

Section FuelFacts.

Variable R : Type.

Lemma star_loop_ext (m : matcher R) g n :
  (forall s c k1 k2, (forall s' c', k1 s' c' = k2 s' c') -> m s c k1 = m s c k2) ->
  forall k1 k2, (forall s c, k1 s c = k2 s c) ->
  forall s c, star_loop m g k1 n s c = star_loop m g k2 n s c.
Proof.
  intros Hm k1 k2 Hk. induction n as [|n IH]; intros s c; simpl.
  - rewrite Hk; reflexivity.
  - rewrite Hk. rewrite (Hm s c _ (progress s (star_loop m g k2 n))); [reflexivity|].
    intros s' c'; unfold progress. destruct (length s' <? length s); auto.
Qed.

Lemma rmatch_ext r : forall s c (k1 k2 : cont R),
  (forall s' c', k1 s' c' = k2 s' c') -> rmatch r s c k1 = rmatch r s c k2.
Proof.
  induction r as [|p|a IHa b IHb|a IHa b IHb|a IHa|g a IHa|i a IHa];
    intros s c k1 k2 Hk; simpl.
  - apply Hk.
  - destruct s as [|x s]; [reflexivity|]. destruct (p x); [apply Hk | reflexivity].
  - apply IHa. intros s' c'. apply IHb, Hk.
  - rewrite (IHa s c k1 k2 Hk), (IHb s c k1 k2 Hk). reflexivity.
  - rewrite Hk. rewrite (IHa s c _ (progress s k2)); [reflexivity|].
    intros s' c'; unfold progress. destruct (length s' <? length s); auto.
  - apply star_loop_ext; assumption.
  - apply IHa. intros s' c'. apply Hk.
Qed.

Lemma star_loop_fail (m : matcher R) g n :
  (forall s c k, (forall s' c', k s' c' = None) -> m s c k = None) ->
  forall s c, star_loop m g (fun _ _ => None) n s c = None.
Proof.
  intros Hm. induction n as [|n IH]; intros s c; simpl.
  - destruct g; reflexivity.
  - rewrite Hm; [destruct g; reflexivity|].
    intros s' c'; unfold progress. destruct (length s' <? length s); auto.
Qed.

Lemma rmatch_fail r : forall s c (k : cont R),
  (forall s' c', k s' c' = None) -> rmatch r s c k = None.
Proof.
  induction r as [|p|a IHa b IHb|a IHa b IHb|a IHa|g a IHa|i a IHa];
    intros s c k Hk; simpl.
  - apply Hk.
  - destruct s as [|x s]; [reflexivity|]. destruct (p x); [apply Hk | reflexivity].
  - apply IHa. intros s' c'. apply IHb, Hk.
  - rewrite (IHa s c k Hk), (IHb s c k Hk). reflexivity.
  - rewrite Hk, IHa; [reflexivity|].
    intros s' c'; unfold progress. destruct (length s' <? length s); auto.
  - rewrite (@star_loop_ext (rmatch (R:=R) a) g (length s) (rmatch_ext a)
               k (fun _ _ => None) Hk).
    apply star_loop_fail. exact IHa.
  - apply IHa. intros s' c'. apply Hk.
Qed.

Lemma star_loop_fuel a g (k : cont R) : forall n n' s c,
  length s <= n -> length s <= n' ->
  star_loop (rmatch a) g k n s c = star_loop (rmatch a) g k n' s c.
Proof.
  assert (Hempty : forall c (k' : cont R), rmatch a [] c (progress [] k') = None).
  { intros c k'. apply rmatch_fail. intros s' c'. unfold progress.
    destruct (length s'); reflexivity. }
  induction n as [|n IH]; intros [|n'] s c Hn Hn'; try reflexivity.
  - destruct s; [|simpl in Hn; lia]. simpl. rewrite Hempty. reflexivity.
  - destruct s; [|simpl in Hn'; lia]. simpl. rewrite Hempty. reflexivity.
  - simpl.
    rewrite (rmatch_ext a s c (progress s (star_loop (rmatch a) g k n))
                              (progress s (star_loop (rmatch a) g k n')));
      [reflexivity|].
    intros s' c'; unfold progress.
    destruct (length s' <? length s) eqn:E; [|reflexivity].
    apply Nat.ltb_lt in E. apply IH; lia.
Qed.

End FuelFacts.

Lemma match_at_shorter r s rest m :
  match_at r s = Some (rest, m) -> length rest <= length s.
Proof.
  intros H. apply match_at_sound, Matches_suffix in H. destruct H as [w ->].
  rewrite length_app. lia.
Qed.

Lemma replace_from_fuel r rep : forall fuel fuel' s,
  length s < fuel -> length s < fuel' ->
  replace_from fuel r rep s = replace_from fuel' r rep s.
Proof.
  induction fuel as [|fuel IH]; intros [|fuel'] s Hf Hf'; try lia.
  simpl.
  assert (Hskip : match s with
                  | [] => []
                  | x :: s' => x :: replace_from fuel r rep s'
                  end
                  = match s with
                    | [] => []
                    | x :: s' => x :: replace_from fuel' r rep s'
                    end).
  { destruct s as [|x s']; [reflexivity|]. simpl in Hf, Hf'.
    rewrite (IH fuel' s') by lia. reflexivity. }
  destruct (match_at r s) as [[rest m]|]; [|exact Hskip].
  destruct (length rest <? length s) eqn:E.
  - apply Nat.ltb_lt in E. rewrite (IH fuel' rest) by lia. reflexivity.
  - rewrite Hskip. reflexivity.
Qed.

Lemma split_from_fuel r : forall fuel fuel' piece s,
  2 * length s + length (firstn 1 piece) < fuel ->
  2 * length s + length (firstn 1 piece) < fuel' ->
  split_from fuel r piece s = split_from fuel' r piece s.
Proof.
  induction fuel as [|fuel IH]; intros [|fuel'] piece s Hf Hf'; try lia.
  simpl. destruct s as [|x s']; [reflexivity|].
  destruct (match_at r (x :: s')) as [[rest m]|] eqn:Em.
  - apply match_at_shorter in Em.
    destruct piece as [|y piece].
    + destruct (length rest <? length (x :: s')) eqn:E.
      * apply Nat.ltb_lt in E. simpl in *.
        rewrite (IH fuel' [] rest) by (simpl; lia). reflexivity.
      * simpl in *. apply (IH fuel' [x] s'); simpl; lia.
    + simpl in *. rewrite (IH fuel' [] rest) by (simpl; lia). reflexivity.
  - simpl in *. apply IH; simpl; lia.
Qed.

(** ** WHERE clauses *)

(** C1.  [translateWhereClause] replaces [=] and then [>] (or [<]) before
    it looks for [>=] (or [<=]): the clause [a >= b] becomes [a gt eq b]
    and [a <= b] becomes [a lt eq b], where the rule for the two-character
    operator would give [a ge b] and [a le b].  The rule for [<>] comes
    before those of [<] and [>] and does give [a ne b]. *)
Theorem translate_ge_le_split :
  SqlParser.translateWhereClause (js "a >= b") = js "a gt eq b" /\
  SqlParser.translateWhereClause (js "a <= b") = js "a lt eq b" /\
  SqlParser.translateWhereClause (js "a <> b") = js "a ne b".
Proof. repeat split; vm_compute; reflexivity. Qed.

(** C10.  The replacements do not know about quoted literals: in
    [name = 'a AND b'] the operator inside the quotes is rewritten too. *)
Theorem translate_rewrites_inside_literal :
  SqlParser.translateWhereClause (js "name = 'a AND b'") = js "name eq 'a and b'".
Proof. vm_compute; reflexivity. Qed.

(** The five tokens outside the comparison operators are replaced as the
    specification lists them. *)
Example translate_example :
  SqlParser.translateWhereClause (js "age > 18 AND name = 'Bob'")
  = js "age gt 18 and name eq 'Bob'".
Proof. vm_compute; reflexivity. Qed.

(** ** SELECT: from the statement to the request *)

(** C2 as the specification words it: the query string is not the literal
    text [?$select=a,b&...]. *)
Lemma select_round_trip_literal_fails :
  exists r,
    QueryToolController.executeQuery (js "https://org.crm.dynamics.com")
      (js "SELECT a, b FROM foo WHERE x = 1 ORDER BY y LIMIT 10") = Ok r /\
    url r <> js "https://org.crm.dynamics.com/api/data/v9.2/foo"
             ++ js "?$select=a,b&$filter=x eq 1&$orderby=y asc&$top=10".
Proof.
  eexists; split; [vm_compute; reflexivity | vm_compute; discriminate].
Qed.

(** C2, amended.  The statement parses to fields [a, b], entity [foo],
    filter [x eq 1], order [y asc] and limit 10, and the request built
    from this query is a GET of the collection URL of [foo] followed by
    the form-urlencoded query string that [URLSearchParams] produces for
    these four parameters. *)
Theorem select_round_trip (orgUrl : str) :
  let q := {| operation := SELECT; entity := js "foo";
              fields := Some [js "a"; js "b"];
              filter := Some (js "x eq 1");
              orderBy := Some [{| field := js "y"; direction := js "asc" |}];
              limit := Some (Finite 10); values := None |} in
  SqlParser.parse (js "SELECT a, b FROM foo WHERE x = 1 ORDER BY y LIMIT 10")
  = Ok q /\
  QueryToolController.toRequest orgUrl q
  = {| method := js "GET";
       url := (orgUrl ++ js "/api/data/v9.2/foo")
              ++ js "?%24select=a%2Cb&%24filter=x+eq+1&%24orderby=y+asc&%24top=10";
       body := None |} /\
  params_toString [(js "$select", js "a,b"); (js "$filter", js "x eq 1");
                   (js "$orderby", js "y asc"); (js "$top", js "10")]
  = js "%24select=a%2Cb&%24filter=x+eq+1&%24orderby=y+asc&%24top=10".
Proof. repeat split; vm_compute; reflexivity. Qed.

(** ** UPDATE and DELETE without WHERE *)

(** C7.  The parser accepts both statements and leaves [filter] unset.
    [DynamicsApi.executeUpdate] and [executeDelete] then refuse the query,
    but the query tool, which is what runs a typed statement, sends PATCH
    or DELETE to the collection URL. *)
Theorem missing_filter_is_sent (orgUrl : str) :
  (exists q,
     SqlParser.parse (js "DELETE FROM account") = Ok q /\
     filter q = None /\
     DynamicsApi.executeDelete orgUrl q
     = Err (Error (js "Filter (WHERE clause) is required for DELETE operations")) /\
     QueryToolController.toRequest orgUrl q
     = {| method := js "DELETE";
          url := orgUrl ++ js "/api/data/v9.2/account";
          body := None |}) /\
  (exists q,
     SqlParser.parse (js "UPDATE account SET name = 'X'") = Ok q /\
     filter q = None /\
     DynamicsApi.executeUpdate orgUrl q
     = Err (Error (js "Filter (WHERE clause) is required for UPDATE operations")) /\
     QueryToolController.toRequest orgUrl q
     = {| method := js "PATCH";
          url := orgUrl ++ js "/api/data/v9.2/account";
          body := Some {| has_prototype := true;
                          props := [(js "name", VStr (js "X"))] |} |}).
Proof.
  split; eexists; (split; [vm_compute; reflexivity|]);
    repeat split; vm_compute; reflexivity.
Qed.

(** ** Dispatch on the leading keyword *)

Lemma all_chars_complete (c : ascii) : In c all_chars.
Proof.
  unfold all_chars. rewrite <- (ascii_nat_embedding c).
  apply in_map, in_seq. pose proof (nat_ascii_bounded c). lia.
Qed.

Lemma upper_char_eqb (c k : ascii) :
  is_upper k = true ->
  Ascii.eqb (upper_char c) k = (Ascii.eqb c k || Ascii.eqb c (lower_char k)).
Proof.
  assert (H : forallb (fun c => forallb (fun k =>
                implb (is_upper k)
                      (Bool.eqb (Ascii.eqb (upper_char c) k)
                                (Ascii.eqb c k || Ascii.eqb c (lower_char k))))
                all_chars) all_chars = true) by (vm_compute; reflexivity).
  rewrite forallb_forall in H. specialize (H c (all_chars_complete c)).
  rewrite forallb_forall in H. specialize (H k (all_chars_complete k)).
  intros Hk; rewrite Hk in H; simpl in H. apply eqb_prop in H; exact H.
Qed.

Lemma semicolon_no_letter (k : ascii) :
  is_upper k = true ->
  (Ascii.eqb ";" k || Ascii.eqb ";" (lower_char k)) = false.
Proof.
  assert (H : forallb (fun k =>
                implb (is_upper k)
                      (negb (Ascii.eqb ";" k || Ascii.eqb ";" (lower_char k))))
                all_chars = true) by (vm_compute; reflexivity).
  rewrite forallb_forall in H. specialize (H k (all_chars_complete k)).
  intros Hk; rewrite Hk in H; simpl in H. apply negb_true_iff in H; exact H.
Qed.

Lemma startsWith_upper (kw : str) : forall s,
  forallb is_upper kw = true ->
  startsWith (toUpperCase s) kw = begins_ci kw s.
Proof.
  induction kw as [|k kw IH]; intros s Hkw; [destruct s; reflexivity|].
  simpl in Hkw; apply andb_true_iff in Hkw; destruct Hkw as [Hk Hkw].
  destruct s as [|c s]; simpl; [reflexivity|].
  rewrite upper_char_eqb by assumption. rewrite IH by assumption. reflexivity.
Qed.

Lemma begins_ci_semicolon (kw : str) : forall s,
  forallb is_upper kw = true ->
  begins_ci kw (s ++ js ";") = begins_ci kw s.
Proof.
  induction kw as [|k kw IH]; intros s Hkw; [destruct s; reflexivity|].
  simpl in Hkw; apply andb_true_iff in Hkw; destruct Hkw as [Hk Hkw].
  destruct s as [|c s]; cbn -[Ascii.eqb lower_char].
  - rewrite semicolon_no_letter by assumption. reflexivity.
  - rewrite <- (IH s) by assumption. reflexivity.
Qed.

Lemma startsWith_terminated (kw sql : str) :
  forallb is_upper kw = true ->
  startsWith (toUpperCase (SqlParser.terminated sql)) kw = begins_ci kw (trim sql).
Proof.
  intros Hkw. rewrite startsWith_upper by assumption.
  unfold SqlParser.terminated. destruct (endsWith (trim sql) (js ";")); [reflexivity|].
  apply begins_ci_semicolon; assumption.
Qed.

(** C5 as the specification words it: a statement whose first token is no
    keyword is not always refused as unsupported.  [SELECTED SELECT a FROM b]
    is read as a SELECT, and [SELECTED] alone is refused by the SELECT
    grammar. *)
Lemma dispatch_ignores_token_end :
  first_token (js "SELECTED SELECT a FROM b") = js "SELECTED" /\
  is_keyword (js "SELECTED") = false /\
  SqlParser.parse (js "SELECTED SELECT a FROM b")
  = Ok {| operation := SELECT; entity := js "b"; fields := Some [js "a"];
          filter := None; orderBy := None; limit := None; values := None |} /\
  SqlParser.parse (js "SELECTED") = Err SqlParser.InvalidSelect.
Proof. repeat split; vm_compute; reflexivity. Qed.

(** C5, amended.  [parse] looks at the first six characters of the trimmed
    statement: when they spell SELECT, INSERT, UPDATE or DELETE in any mix
    of cases the statement, terminated by [;], goes to the grammar of that
    keyword, whatever follows the sixth character; in every other case
    [parse] fails with the error for an unsupported operation. *)
Theorem parse_dispatch (sql : str) :
  SqlParser.parse sql =
  if begins_ci (js "SELECT") (trim sql)
  then SqlParser.parseSelect (SqlParser.terminated sql)
  else if begins_ci (js "INSERT") (trim sql)
  then SqlParser.parseInsert (SqlParser.terminated sql)
  else if begins_ci (js "UPDATE") (trim sql)
  then SqlParser.parseUpdate (SqlParser.terminated sql)
  else if begins_ci (js "DELETE") (trim sql)
  then SqlParser.parseDelete (SqlParser.terminated sql)
  else Err SqlParser.UnsupportedOperation.
Proof.
  unfold SqlParser.parse.
  rewrite !startsWith_terminated by reflexivity. reflexivity.
Qed.

(** ** The entity of a parsed query *)

Lemma word_plus_consumes s c s1 c1 :
  Matches word_plus s c s1 c1 ->
  consumed s s1 <> [] /\ forallb is_word (consumed s s1) = true.
Proof.
  intros H; apply Matches_plus_chr in H.
  destruct H as [_ (w & -> & Hne & Hw)]. rewrite consumed_app. auto.
Qed.

Lemma word_group i r s rest m e :
  group_is i word_plus r ->
  exec r s = Some (rest, m) -> cap i m = Some e ->
  e <> [] /\ forallb is_word e = true.
Proof.
  intros Hg He Hc. apply exec_sound in He. destruct He as (pre & suf & -> & Hm).
  refine (@group_is_sound i word_plus
            (fun w => w <> [] /\ forallb is_word w = true)
            word_plus_consumes _ _ _ _ _ Hm Hg _ _ Hc).
  discriminate.
Qed.

Lemma parseSelect_entity sql q :
  SqlParser.parseSelect sql = Ok q ->
  entity q <> [] /\ forallb is_word (entity q) = true.
Proof.
  unfold SqlParser.parseSelect.
  destruct (exec SqlParser.selectPattern sql) as [[rest m]|] eqn:E; [|discriminate].
  destruct (cap 1 m) as [fieldsStr|]; [|discriminate].
  destruct (cap 2 m) as [e|] eqn:E2; [|discriminate].
  intros [= <-]; simpl.
  refine (@word_group 2 _ _ _ _ _ _ E E2). group_is_tac.
Qed.

Lemma parseInsert_entity sql q :
  SqlParser.parseInsert sql = Ok q ->
  entity q <> [] /\ forallb is_word (entity q) = true.
Proof.
  unfold SqlParser.parseInsert.
  destruct (exec SqlParser.insertPattern sql) as [[rest m]|] eqn:E; [|discriminate].
  destruct (cap 1 m) as [e|] eqn:E1; [|discriminate].
  destruct (cap 2 m) as [columnsStr|]; [|discriminate].
  destruct (cap 3 m) as [valuesStr|]; [|discriminate].
  intros [= <-]; simpl.
  refine (@word_group 1 _ _ _ _ _ _ E E1). group_is_tac.
Qed.

Lemma parseUpdate_entity sql q :
  SqlParser.parseUpdate sql = Ok q ->
  entity q <> [] /\ forallb is_word (entity q) = true.
Proof.
  unfold SqlParser.parseUpdate.
  destruct (exec SqlParser.updatePattern sql) as [[rest m]|] eqn:E; [|discriminate].
  destruct (cap 1 m) as [e|] eqn:E1; [|discriminate].
  destruct (cap 2 m) as [setClause|]; [|discriminate].
  destruct (SqlParser.parseSet _ _) as [o|err]; simpl; [|discriminate].
  intros [= <-]; simpl.
  refine (@word_group 1 _ _ _ _ _ _ E E1). group_is_tac.
Qed.

Lemma parseDelete_entity sql q :
  SqlParser.parseDelete sql = Ok q ->
  entity q <> [] /\ forallb is_word (entity q) = true.
Proof.
  unfold SqlParser.parseDelete.
  destruct (exec SqlParser.deletePattern sql) as [[rest m]|] eqn:E; [|discriminate].
  destruct (cap 1 m) as [e|] eqn:E1; [|discriminate].
  intros [= <-]; simpl.
  refine (@word_group 1 _ _ _ _ _ _ E E1). group_is_tac.
Qed.

(** C6 as the specification words it: the entity may begin with a digit. *)
Lemma entity_may_start_with_digit :
  exists q,
    SqlParser.parse (js "SELECT a FROM 1abc") = Ok q /\
    entity q = js "1abc" /\
    is_identifier (entity q) = false.
Proof. eexists; repeat split; vm_compute; reflexivity. Qed.

(** C6, amended.  Whenever [parse] succeeds, for each of the four
    operations, the entity is what [(\w+)] captured: it is not empty and
    all its characters are letters, digits or [_]; a leading digit is not
    excluded. *)
Theorem parsed_entity_is_word (sql : str) (q : ParsedQuery) :
  SqlParser.parse sql = Ok q ->
  entity q <> [] /\ forallb is_word (entity q) = true.
Proof.
  unfold SqlParser.parse.
  repeat match goal with |- context [if ?b then _ else _] => destruct b end;
    [apply parseSelect_entity | apply parseInsert_entity
    | apply parseUpdate_entity | apply parseDelete_entity | discriminate].
Qed.

Lemma parsed_entity_is_word_witness :
  exists q,
    SqlParser.parse (js "SELECT a FROM 1abc") = Ok q /\
    entity q <> [] /\ forallb is_word (entity q) = true.
Proof.
  eexists. split; [vm_compute; reflexivity|].
  apply (@parsed_entity_is_word (js "SELECT a FROM 1abc")).
  vm_compute; reflexivity.
Defined.

(** ** The [$select] parameter *)

Lemma selectParams_fields (q : ParsedQuery) f fs :
  fields q = Some (f :: fs) ->
  exists rest,
    selectParams q = (js "$select", join (js ",") (f :: fs)) :: rest /\
    getParam (js "$select") rest = None.
Proof.
  intros Hf. unfold selectParams. rewrite Hf.
  destruct (filter q) as [[|x0 f0]|], (orderBy q) as [[|i0 o0]|], (limit q) as [z|];
    try destruct (number_truthy z); eexists; split; reflexivity.
Qed.

Lemma selectParams_no_fields (q : ParsedQuery) :
  fields q = None \/ fields q = Some [] ->
  getParam (js "$select") (selectParams q) = None.
Proof.
  intros Hf. unfold selectParams.
  destruct Hf as [-> | ->];
    destruct (filter q) as [[|x0 f0]|], (orderBy q) as [[|i0 o0]|], (limit q) as [z|];
    try destruct (number_truthy z); reflexivity.
Qed.

Lemma withQuery_cons (u k v : str) (rest : params_t) :
  withQuery u ((k, v) :: rest)
  = u ++ js "?" ++ formEncode k ++ js "=" ++ formEncode v
      ++ match rest with
         | [] => []
         | _ :: _ => js "&" ++ params_toString rest
         end.
Proof.
  unfold withQuery.
  assert (E : params_toString ((k, v) :: rest)
              = formEncode k ++ js "=" ++ formEncode v
                ++ match rest with
                   | [] => []
                   | _ :: _ => js "&" ++ params_toString rest
                   end).
  { unfold params_toString; simpl. destruct rest as [|p rest]; simpl.
    - rewrite app_nil_r; reflexivity.
    - rewrite <- !app_assoc. reflexivity. }
  rewrite E.
  destruct (formEncode k ++ js "=" ++ _) as [|x qs] eqn:Eq; [|reflexivity].
  apply app_eq_nil in Eq; destruct Eq as [_ Eq]; discriminate.
Qed.

(** C3 as the specification words it: the single wildcard is not left
    out; [SELECT * FROM account] asks for [$select=*], in the query tool
    and in [DynamicsApi.executeRetrieve] alike. *)
Lemma wildcard_is_selected :
  exists q,
    SqlParser.parse (js "SELECT * FROM account") = Ok q /\
    fields q = Some [js "*"] /\
    getParam (js "$select") (selectParams q) = Some (js "*") /\
    QueryToolController.buildQueryUrl (js "https://org.crm.dynamics.com") q
    = js "https://org.crm.dynamics.com/api/data/v9.2/account?%24select=*" /\
    url (DynamicsApi.executeRetrieve (js "https://org.crm.dynamics.com") q)
    = js "https://org.crm.dynamics.com/api/data/v9.2/account?%24select=*".
Proof. eexists; repeat split; vm_compute; reflexivity. Qed.

(** C3, amended.  For a SELECT query both builders put the parameters of
    [selectParams] behind the collection URL.  When [fields] is missing or
    empty there is no [$select] among them.  For every non-empty field
    list, the single wildcard included, [$select] is the first parameter,
    its value is the list joined by commas, and the URL continues with it
    in form-urlencoded shape. *)
Theorem select_parameter (orgUrl : str) (q : ParsedQuery) :
  operation q = SELECT ->
  QueryToolController.buildQueryUrl orgUrl q
  = withQuery (QueryToolController.collectionUrl orgUrl q) (selectParams q) /\
  url (DynamicsApi.executeRetrieve orgUrl q)
  = withQuery (DynamicsApi.entityUrl orgUrl (entity q)) (selectParams q) /\
  (fields q = None \/ fields q = Some [] ->
   getParam (js "$select") (selectParams q) = None) /\
  (forall f fs, fields q = Some (f :: fs) ->
   getParam (js "$select") (selectParams q) = Some (join (js ",") (f :: fs)) /\
   exists tail,
     QueryToolController.buildQueryUrl orgUrl q
     = QueryToolController.collectionUrl orgUrl q
       ++ js "?%24select=" ++ formEncode (join (js ",") (f :: fs)) ++ tail).
Proof.
  intros Hop.
  assert (Hb : QueryToolController.buildQueryUrl orgUrl q
               = withQuery (QueryToolController.collectionUrl orgUrl q) (selectParams q)).
  { unfold QueryToolController.buildQueryUrl. rewrite Hop. reflexivity. }
  split; [exact Hb|]. split; [reflexivity|].
  split; [apply selectParams_no_fields|].
  intros f fs Hf. destruct (selectParams_fields q Hf) as (rest & E & Hrest).
  split.
  - rewrite E. reflexivity.
  - rewrite Hb, E, withQuery_cons. eexists. reflexivity.
Qed.

Lemma select_parameter_witness :
  let q := {| operation := SELECT; entity := js "account";
              fields := Some [js "name"; js "accountid"];
              filter := None; orderBy := None; limit := Some (Finite 10);
              values := None |} in
  operation q = SELECT /\
  getParam (js "$select") (selectParams q) = Some (js "name,accountid").
Proof.
  intros q. split; [reflexivity|].
  exact (proj1 (proj2 (proj2 (proj2
           (@select_parameter (js "https://org.crm.dynamics.com") q eq_refl)))
           (js "name") [js "accountid"] eq_refl)).
Defined.

(** ** The SET clause of UPDATE *)

Lemma split_cons (sep : ascii) (s : str) :
  In sep s ->
  split sep s = before_first sep s :: split sep (after_first sep s).
Proof.
  induction s as [|c s IH]; simpl; [tauto|].
  destruct (Ascii.eqb c sep) eqn:E; [reflexivity|].
  intros [H|H]; [subst; rewrite Ascii.eqb_refl in E; discriminate|].
  rewrite (IH H). reflexivity.
Qed.

Lemma split_single (sep : ascii) (s : str) :
  ~ In sep s -> split sep s = [s].
Proof.
  induction s as [|c s IH]; simpl; [reflexivity|]; intros H.
  destruct (Ascii.eqb c sep) eqn:E.
  - apply Ascii.eqb_eq in E; tauto.
  - rewrite IH by tauto. reflexivity.
Qed.

Lemma split_head (sep : ascii) (s : str) :
  exists t, split sep s = before_first sep s :: t.
Proof.
  induction s as [|c s [t IH]]; simpl; [eexists; reflexivity|].
  destruct (Ascii.eqb c sep); [eexists; reflexivity|].
  rewrite IH. eexists; reflexivity.
Qed.

Lemma assign_spec (o : jsobject) (a : str) :
  In "="%char a ->
  SqlParser.assign o a
  = Ok (obj_set o (assignedColumn a) (SqlParser.literal (assignedValue a))).
Proof.
  intros H. unfold SqlParser.assign, assignedColumn, assignedValue.
  rewrite (split_cons _ _ H).
  destruct (split_head "=" (after_first "=" a)) as [t ->]. reflexivity.
Qed.

Lemma assign_no_equals (o : jsobject) (a : str) :
  ~ In "="%char a -> SqlParser.assign o a = Err TypeError.
Proof.
  intros H. unfold SqlParser.assign. rewrite (split_single _ _ H). reflexivity.
Qed.

Lemma parseSet_spec (l : list str) : forall o o',
  SqlParser.parseSet o l = Ok o' ->
  Forall (In "="%char) l /\
  o' = fold_left (fun o a => obj_set o (assignedColumn a)
                                     (SqlParser.literal (assignedValue a))) l o.
Proof.
  induction l as [|a l IH]; simpl; intros o o' H.
  - injection H as <-. split; [constructor | reflexivity].
  - destruct (in_dec ascii_dec "="%char a) as [Hin|Hout].
    + rewrite (assign_spec _ _ Hin) in H; simpl in H.
      apply IH in H; destruct H as [Hall ->].
      split; [constructor; assumption | reflexivity].
    + rewrite (assign_no_equals _ _ Hout) in H; discriminate.
Qed.

(** C4 as the specification words it: the value is not everything behind
    the first [=].  In [SET a = 'x=y'] the text behind the first [=] is
    ['x=y'], the string [x=y]; the parser binds [a] to the string ['x]. *)
Lemma set_value_stops_at_second_equals :
  exists q o,
    SqlParser.parse (js "UPDATE t SET a = 'x=y' WHERE id = 1") = Ok q /\
    values q = Some o /\
    obj_get o (js "a") = Some (VStr (js "'x")) /\
    SqlParser.literal (trim (after_first "=" (js "a = 'x=y'"))) = VStr (js "x=y").
Proof. eexists _, _; repeat split; vm_compute; reflexivity. Qed.

(** C4, amended.  When [parseUpdate] succeeds, every comma-separated
    assignment of the SET clause contains [=]; taken in order, each binds
    the trimmed text before its first [=] to the literal read from the
    trimmed text between its first [=] and its next [=] (the end of the
    assignment when there is no other); what follows a second [=] is not
    used. *)
Theorem set_clause_assignments (sql : str) (q : ParsedQuery) :
  SqlParser.parseUpdate sql = Ok q ->
  exists rest m setClause,
    exec SqlParser.updatePattern sql = Some (rest, m) /\
    cap 2 m = Some setClause /\
    Forall (In "="%char) (split "," setClause) /\
    values q
    = Some (fold_left (fun o a => obj_set o (assignedColumn a)
                                            (SqlParser.literal (assignedValue a)))
                      (split "," setClause) empty_object).
Proof.
  unfold SqlParser.parseUpdate.
  destruct (exec SqlParser.updatePattern sql) as [[rest m]|]; [|discriminate].
  destruct (cap 1 m) as [e|]; [|discriminate].
  destruct (cap 2 m) as [setClause|] eqn:E2; [|discriminate].
  destruct (SqlParser.parseSet _ _) as [o|err] eqn:E; simpl; [|discriminate].
  intros [= <-]; simpl. apply parseSet_spec in E; destruct E as [Hall ->].
  exists rest, m, setClause; repeat split; auto.
Qed.

Lemma set_clause_assignments_witness :
  let sql := js "UPDATE t SET a = 'x=y', b = 2 WHERE id = 1;" in
  let q := {| operation := UPDATE; entity := js "t"; fields := None;
              filter := Some (js "id eq 1"); orderBy := None; limit := None;
              values := Some {| has_prototype := true;
                                props := [(js "a", VStr (js "'x"));
                                          (js "b", VNum (js "2"))] |} |} in
  SqlParser.parseUpdate sql = Ok q /\
  exists rest m setClause,
    exec SqlParser.updatePattern sql = Some (rest, m) /\
    cap 2 m = Some setClause /\
    Forall (In "="%char) (split "," setClause) /\
    values q
    = Some (fold_left (fun o a => obj_set o (assignedColumn a)
                                            (SqlParser.literal (assignedValue a)))
                      (split "," setClause) empty_object).
Proof.
  intros sql q.
  assert (H : SqlParser.parseUpdate sql = Ok q) by (vm_compute; reflexivity).
  split; [exact H | exact (@set_clause_assignments sql q H)].
Defined.

(** ** The values of INSERT *)

Lemma assoc_get_set_same k v l : assoc_get k (assoc_set k v l) = Some v.
Proof.
  induction l as [|[k' v'] l IH]; simpl.
  - rewrite str_eqb_refl; reflexivity.
  - destruct (str_eqb k' k) eqn:E; simpl; [rewrite str_eqb_refl | rewrite E]; auto.
Qed.

Lemma assoc_get_set_other k k' v l :
  k' <> k -> assoc_get k' (assoc_set k v l) = assoc_get k' l.
Proof.
  intros Hne. induction l as [|[k0 v0] l IH]; simpl.
  - apply not_eq_sym, str_eqb_neq in Hne. rewrite Hne; reflexivity.
  - destruct (str_eqb k0 k) eqn:E; simpl.
    + apply str_eqb_eq in E; subst k0.
      apply not_eq_sym, str_eqb_neq in Hne. rewrite Hne; reflexivity.
    + destruct (str_eqb k0 k'); auto.
Qed.

Lemma assoc_set_keys k v l k' :
  In k' (map fst (assoc_set k v l)) <-> k' = k \/ In k' (map fst l).
Proof.
  induction l as [|[k0 v0] l IH]; simpl.
  - intuition.
  - destruct (str_eqb k0 k) eqn:E; simpl.
    + apply str_eqb_eq in E; subst k0. intuition.
    + rewrite IH. intuition.
Qed.

Lemma obj_get_set_same o k v :
  k <> proto_key -> obj_get (obj_set o k v) k = Some v.
Proof.
  intros Hk. apply str_eqb_neq in Hk. unfold obj_set, obj_get. rewrite Hk; simpl.
  apply assoc_get_set_same.
Qed.

Lemma obj_get_set_other o k v k' :
  k' <> k -> obj_get (obj_set o k v) k' = obj_get o k'.
Proof.
  intros Hne. unfold obj_set, obj_get.
  destruct (str_eqb k proto_key && has_prototype o).
  - destruct v; reflexivity.
  - simpl. apply assoc_get_set_other; assumption.
Qed.

Lemma obj_set_keys o k v k' :
  In k' (keys (obj_set o k v)) -> k' = k \/ In k' (keys o).
Proof.
  unfold obj_set, keys.
  destruct (str_eqb k proto_key && has_prototype o).
  - destruct v; auto.
  - simpl. apply assoc_set_keys.
Qed.

Lemma obj_set_keeps_keys o k v k' :
  In k' (keys o) -> In k' (keys (obj_set o k v)).
Proof.
  unfold obj_set, keys.
  destruct (str_eqb k proto_key && has_prototype o).
  - destruct v; auto.
  - simpl. intros H; apply assoc_set_keys; auto.
Qed.

Lemma obj_set_adds_key o k v :
  k <> proto_key -> In k (keys (obj_set o k v)).
Proof.
  intros Hk. apply str_eqb_neq in Hk. unfold obj_set, keys. rewrite Hk; simpl.
  apply assoc_set_keys; auto.
Qed.

Lemma bindColumns_keys vals columns : forall o index k,
  In k (keys (SqlParser.bindColumns o columns index vals)) ->
  In k columns \/ In k (keys o).
Proof.
  induction columns as [|col rest IH]; simpl; intros o index k H; [auto|].
  apply IH in H. destruct H as [H|H]; [auto|].
  apply obj_set_keys in H. destruct H; auto.
Qed.

Lemma bindColumns_keeps_keys vals columns : forall o index k,
  In k (keys o) -> In k (keys (SqlParser.bindColumns o columns index vals)).
Proof.
  induction columns as [|col rest IH]; simpl; intros o index k H; [auto|].
  apply IH, obj_set_keeps_keys, H.
Qed.

Lemma bindColumns_adds_keys vals columns : forall o index col,
  In col columns -> col <> proto_key ->
  In col (keys (SqlParser.bindColumns o columns index vals)).
Proof.
  induction columns as [|c rest IH]; simpl; intros o index col H Hp; [tauto|].
  destruct H as [->|H]; [|apply IH; assumption].
  apply bindColumns_keeps_keys, obj_set_adds_key, Hp.
Qed.

Lemma bindColumns_other vals columns : forall o index k,
  ~ In k columns ->
  obj_get (SqlParser.bindColumns o columns index vals) k = obj_get o k.
Proof.
  induction columns as [|col rest IH]; simpl; intros o index k H; [reflexivity|].
  rewrite IH by tauto. apply obj_get_set_other. intros ->; tauto.
Qed.

Lemma bindColumns_position vals columns : forall o index i col,
  nth_error columns i = Some col -> col <> proto_key ->
  ~ In col (skipn (S i) columns) ->
  obj_get (SqlParser.bindColumns o columns index vals) col
  = Some (nth (index + i) vals VUndefined).
Proof.
  induction columns as [|c rest IH]; intros o index i col Hn Hp Hlast.
  - destruct i; discriminate.
  - destruct i as [|i]; simpl in Hn.
    + injection Hn as ->. simpl in Hlast. simpl.
      rewrite bindColumns_other by assumption.
      rewrite Nat.add_0_r. apply obj_get_set_same, Hp.
    + simpl. rewrite (IH _ (S index) i col Hn Hp Hlast).
      f_equal. f_equal. lia.
Qed.

(** C8 as the specification words it: a column listed twice takes the value
    of its later position, and a column named [__proto__] is no key of the
    mapping. *)
Lemma insert_duplicate_and_proto_columns :
  (exists q o,
     SqlParser.parse (js "INSERT INTO t (a, a) VALUES (1, 2)") = Ok q /\
     values q = Some o /\
     props o = [(js "a", VNum (js "2"))]) /\
  (exists q o,
     SqlParser.parse (js "INSERT INTO t (__proto__) VALUES (1)") = Ok q /\
     values q = Some o /\
     keys o = []).
Proof. split; eexists _, _; repeat split; vm_compute; reflexivity. Qed.

(** C8, amended.  When [parseInsert] succeeds, the columns and the values
    are the two comma-separated lists, and the mapping is built by
    assigning the value at each position to the column at that position, in
    order.  Its keys are listed columns, and every listed column other than
    [__proto__] is a key.  A column other than [__proto__] that is not
    listed again further right is bound to the value at its own position,
    or to [undefined] when the values end before that position; values
    beyond the last column are bound to nothing. *)
Theorem insert_binds_by_position (sql : str) (q : ParsedQuery) :
  SqlParser.parseInsert sql = Ok q ->
  exists rest m columnsStr valuesStr o,
    exec SqlParser.insertPattern sql = Some (rest, m) /\
    cap 2 m = Some columnsStr /\ cap 3 m = Some valuesStr /\
    values q = Some o /\
    let columns := SqlParser.insertColumns columnsStr in
    let vals := SqlParser.insertValues valuesStr in
    (forall k, In k (keys o) -> In k columns) /\
    (forall col, In col columns -> col <> proto_key -> In col (keys o)) /\
    (forall i col,
       nth_error columns i = Some col -> col <> proto_key ->
       ~ In col (skipn (S i) columns) ->
       obj_get o col = Some (nth i vals VUndefined)).
Proof.
  unfold SqlParser.parseInsert.
  destruct (exec SqlParser.insertPattern sql) as [[rest m]|]; [|discriminate].
  destruct (cap 1 m) as [e|]; [|discriminate].
  destruct (cap 2 m) as [columnsStr|] eqn:E2; [|discriminate].
  destruct (cap 3 m) as [valuesStr|] eqn:E3; [|discriminate].
  intros [= <-]; simpl.
  eexists rest, m, columnsStr, valuesStr, _.
  split; [reflexivity|]. split; [exact E2|]. split; [exact E3|].
  split; [reflexivity|]. repeat split.
  - intros k H. apply bindColumns_keys in H. destruct H as [H|H]; [exact H | destruct H].
  - intros col H Hp. apply bindColumns_adds_keys; assumption.
  - intros i col Hn Hp Hlast.
    apply (bindColumns_position _ _ empty_object 0 i Hn Hp Hlast).
Qed.

Lemma insert_binds_by_position_witness :
  let sql := js "INSERT INTO account (name, revenue, active) VALUES ('Acme', 1000);" in
  let q := {| operation := INSERT; entity := js "account"; fields := None;
              filter := None; orderBy := None; limit := None;
              values := Some {| has_prototype := true;
                                props := [(js "name", VStr (js "Acme"));
                                          (js "revenue", VNum (js "1000"));
                                          (js "active", VUndefined)] |} |} in
  SqlParser.parseInsert sql = Ok q /\
  exists rest m columnsStr valuesStr o,
    exec SqlParser.insertPattern sql = Some (rest, m) /\
    cap 2 m = Some columnsStr /\ cap 3 m = Some valuesStr /\
    values q = Some o /\
    let columns := SqlParser.insertColumns columnsStr in
    let vals := SqlParser.insertValues valuesStr in
    (forall k, In k (keys o) -> In k columns) /\
    (forall col, In col columns -> col <> proto_key -> In col (keys o)) /\
    (forall i col,
       nth_error columns i = Some col -> col <> proto_key ->
       ~ In col (skipn (S i) columns) ->
       obj_get o col = Some (nth i vals VUndefined)).
Proof.
  intros sql q.
  assert (H : SqlParser.parseInsert sql = Ok q) by (vm_compute; reflexivity).
  split; [exact H | exact (@insert_binds_by_position sql q H)].
Defined.

(** ** The record addressed by UPDATE and DELETE *)

Lemma Matches_Seq_inv a b s c s2 c2 :
  Matches (Seq a b) s c s2 c2 ->
  exists s1 c1, Matches a s c s1 c1 /\ Matches b s1 c1 s2 c2.
Proof. intros H; inversion H; subst; eauto. Qed.

Lemma Matches_Group_inv i a s c s1 c1' :
  Matches (Group i a) s c s1 c1' ->
  exists c1, Matches a s c s1 c1 /\ c1' = (i, consumed s s1) :: c1.
Proof. intros H; inversion H; subst; eauto. Qed.

Lemma Matches_Chr_inv p s c s1 c1 :
  Matches (Chr p) s c s1 c1 -> exists x, s = x :: s1 /\ p x = true /\ c1 = c.
Proof. intros H; inversion H; subst; eauto. Qed.

Lemma replace_chr_filter (p : ascii -> bool) (s : str) : forall fuel,
  length s <= fuel ->
  replace_from fuel (Chr p) [] s = List.filter (fun c => negb (p c)) s.
Proof.
  induction s as [|x s IH]; intros [|fuel] Hf; simpl in Hf; try lia;
    try reflexivity.
  cbn [replace_from match_at rmatch]. destruct (p x) eqn:E; simpl; rewrite E; simpl.
  - replace (length s <? S (length s)) with true
      by (symmetry; apply Nat.ltb_lt; lia).
    apply IH; lia.
  - f_equal. apply IH; lia.
Qed.

Lemma formatId_strip (idValue : str) :
  QueryToolController.formatId idValue = strip_braces idValue.
Proof.
  unfold QueryToolController.formatId, replace_all, strip_braces.
  apply replace_chr_filter. lia.
Qed.

Lemma idPattern_intro value text post :
  IdClause value text ->
  exists m, Matches QueryToolController.idPattern (text ++ post) [] post m.
Proof.
  intros [word id ws1 eq ws2 Hw1 Hw2 Hid Hs1 Hs1' Heq Hs2 Hs2' Hv Hv'].
  repeat rewrite <- app_assoc.
  unfold QueryToolController.idPattern; cbn [cat].
  eexists.
  eapply M_Seq.
  { apply M_Group. eapply M_Seq.
    - apply plus_chr_intro; assumption.
    - apply LitCI_intro. exact Hid. }
  eapply M_Seq; [apply plus_chr_intro; assumption|].
  eapply M_Seq; [apply LitCI_intro; exact Heq|].
  eapply M_Seq; [apply plus_chr_intro; assumption|].
  eapply M_Seq; [apply M_Chr; reflexivity|].
  eapply M_Seq; [apply M_Group, plus_chr_intro; assumption|].
  apply M_Chr; reflexivity.
Qed.

Lemma idPattern_elim suf rest m :
  Matches QueryToolController.idPattern suf [] rest m ->
  exists value text,
    IdClause value text /\ suf = text ++ rest /\ cap 2 m = Some value.
Proof.
  unfold QueryToolController.idPattern; cbn [cat]. intros H.
  apply Matches_Seq_inv in H; destruct H as (s1 & c1 & HG & H).
  apply Matches_Group_inv in HG; destruct HG as (c0 & HG & ->).
  apply Matches_Seq_inv in HG; destruct HG as (sa & ca & Hword & Hid).
  apply Matches_plus_chr in Hword; destruct Hword as [-> (word & -> & Hw & Hw')].
  apply Matches_LitCI in Hid; destruct Hid as [-> (id & -> & Hid)].
  apply Matches_Seq_inv in H; destruct H as (s2 & c2 & Hws1 & H).
  apply Matches_plus_chr in Hws1; destruct Hws1 as [-> (ws1 & -> & Hs1 & Hs1')].
  apply Matches_Seq_inv in H; destruct H as (s3 & c3 & Heq & H).
  apply Matches_LitCI in Heq; destruct Heq as [-> (eq & -> & Heq)].
  apply Matches_Seq_inv in H; destruct H as (s4 & c4 & Hws2 & H).
  apply Matches_plus_chr in Hws2; destruct Hws2 as [-> (ws2 & -> & Hs2 & Hs2')].
  apply Matches_Seq_inv in H; destruct H as (s5 & c5 & Hq & H).
  apply Matches_Chr_inv in Hq; destruct Hq as (x & -> & Hx & ->).
  apply Matches_Seq_inv in H; destruct H as (s6 & c6 & HG2 & H).
  apply Matches_Group_inv in HG2; destruct HG2 as (c7 & HG2 & ->).
  apply Matches_plus_chr in HG2; destruct HG2 as [-> (value & -> & Hv & Hv')].
  apply Matches_Chr_inv in H; destruct H as (y & -> & Hy & ->).
  apply Ascii.eqb_eq in Hx, Hy; subst x y.
  exists value, (word ++ id ++ ws1 ++ eq ++ ws2 ++ js "'" ++ value ++ js "'").
  split; [constructor; assumption|]. split.
  - repeat rewrite <- app_assoc. reflexivity.
  - simpl. rewrite consumed_app. reflexivity.
Qed.

Lemma idPattern_value f rest m :
  exec QueryToolController.idPattern f = Some (rest, m) ->
  exists pre value text,
    IdClause value text /\ f = pre ++ text ++ rest /\ cap 2 m = Some value.
Proof.
  intros H. apply exec_sound in H; destruct H as (pre & suf & -> & H).
  apply idPattern_elim in H; destruct H as (value & text & Hc & -> & Hv).
  exists pre, value, text; auto.
Qed.

Lemma IdClause_nonempty value text : IdClause value text -> text <> [].
Proof.
  intros [word id ws1 eq ws2 Hw _ _ _ _ _ _ _ _ _] E.
  apply app_eq_nil in E; destruct E; contradiction.
Qed.

(** [exec] answers with the match at the leftmost start that has one. *)
Lemma exec_leftmost r : forall s rest m,
  exec r s = Some (rest, m) ->
  exists pre suf,
    s = pre ++ suf /\ match_at r suf = Some (rest, m) /\
    forall pre1 suf1,
      s = pre1 ++ suf1 -> length pre1 < length pre -> match_at r suf1 = None.
Proof.
  induction s as [|x s IH]; intros rest m; cbn [exec];
    destruct (match_at r _) as [[rest' m']|] eqn:E.
  - intros [= <- <-]. exists [], []. repeat split; [exact E|].
    intros pre1 suf1 _ Hlt. simpl in Hlt. lia.
  - discriminate.
  - intros [= <- <-]. exists [], (x :: s). repeat split; [exact E|].
    intros pre1 suf1 _ Hlt. simpl in Hlt. lia.
  - intros H. apply IH in H. destruct H as (pre & suf & -> & Hm & Hmin).
    exists (x :: pre), suf. split; [reflexivity|]. split; [exact Hm|].
    intros [|y pre1] suf1 E1 Hlt.
    + simpl in E1. subst suf1. exact E.
    + injection E1 as -> E1. apply (Hmin pre1 suf1 E1). simpl in Hlt. lia.
Qed.

(** A run of characters of a class that ends where the class ends is
    determined by the text it starts. *)
Lemma span_unique (P : ascii -> bool) : forall l1 l2 r1 r2 : str,
  forallb P l1 = true -> forallb P l2 = true ->
  match r1 with x :: _ => P x = false | [] => True end ->
  match r2 with x :: _ => P x = false | [] => True end ->
  l1 ++ r1 = l2 ++ r2 -> l1 = l2 /\ r1 = r2.
Proof.
  induction l1 as [|a l1 IH]; intros [|b l2] r1 r2 H1 H2 Hr1 Hr2 E;
    cbn [app forallb] in *.
  - auto.
  - subst r1. apply andb_true_iff in H2. destruct H2 as [Hb _].
    rewrite Hb in Hr1. discriminate.
  - subst r2. apply andb_true_iff in H1. destruct H1 as [Ha _].
    rewrite Ha in Hr2. discriminate.
  - injection E as -> E.
    apply andb_true_iff in H1. destruct H1 as [_ H1].
    apply andb_true_iff in H2. destruct H2 as [_ H2].
    destruct (IH l2 r1 r2 H1 H2 Hr1 Hr2 E) as [-> ->]. auto.
Qed.

Lemma char_classes (c : ascii) :
  (is_space c = true -> is_word c = false) /\
  (upper_char c = "I"%char \/ upper_char c = "D"%char -> is_word c = true) /\
  (upper_char c = "E"%char -> is_space c = false).
Proof.
  assert (H : forallb (fun c =>
                implb (is_space c) (negb (is_word c))
                && implb (Ascii.eqb (upper_char c) "I"
                          || Ascii.eqb (upper_char c) "D") (is_word c)
                && implb (Ascii.eqb (upper_char c) "E") (negb (is_space c)))
              all_chars = true) by (vm_compute; reflexivity).
  rewrite forallb_forall in H. specialize (H c (all_chars_complete c)).
  apply andb_true_iff in H. destruct H as [H H3].
  apply andb_true_iff in H. destruct H as [H1 H2].
  repeat split.
  - intros E. rewrite E in H1. apply negb_true_iff in H1. exact H1.
  - intros [E|E]; rewrite E in H2; [|rewrite orb_true_r in H2]; exact H2.
  - intros E. rewrite E in H3. apply negb_true_iff in H3. exact H3.
Qed.

Lemma upper_two (t : str) (a b : ascii) :
  toUpperCase t = [a; b] ->
  exists x y, t = [x; y] /\ upper_char x = a /\ upper_char y = b.
Proof.
  destruct t as [|x [|y [|z t]]]; unfold toUpperCase; cbn [map];
    try discriminate.
  intros [= <- <-]. exists x, y. auto.
Qed.

(** Two clauses that start at the same place have the same value. *)
Lemma IdClause_same_start value1 text1 post1 value2 text2 post2 :
  IdClause value1 text1 -> IdClause value2 text2 ->
  text1 ++ post1 = text2 ++ post2 -> value1 = value2.
Proof.
  intros [w1 i1 a1 e1 b1 Hw1 Hw1' Hi1 Ha1 Ha1' He1 Hb1 Hb1' Hv1 Hv1']
         [w2 i2 a2 e2 b2 Hw2 Hw2' Hi2 Ha2 Ha2' He2 Hb2 Hb2' Hv2 Hv2'] E.
  change (js "ID") with ["I"%char; "D"%char] in Hi1, Hi2.
  change (js "EQ") with ["E"%char; "Q"%char] in He1, He2.
  apply upper_two in Hi1, Hi2, He1, He2.
  destruct Hi1 as (i1a & i1b & -> & Hi1a & Hi1b).
  destruct Hi2 as (i2a & i2b & -> & Hi2a & Hi2b).
  destruct He1 as (e1a & e1b & -> & He1a & _).
  destruct He2 as (e2a & e2b & -> & He2a & _).
  destruct a1 as [|s1 a1]; [congruence|]. destruct a2 as [|s2 a2]; [congruence|].
  destruct b1 as [|t1 b1]; [congruence|]. destruct b2 as [|t2 b2]; [congruence|].
  assert (Hs1 : is_space s1 = true)
    by (cbn [forallb] in Ha1'; apply andb_true_iff in Ha1'; tauto).
  assert (Hs2 : is_space s2 = true)
    by (cbn [forallb] in Ha2'; apply andb_true_iff in Ha2'; tauto).
  (* the word and [id] *)
  assert (E1 : (w1 ++ [i1a; i1b]) ++ (s1 :: a1) ++ [e1a; e1b] ++ (t1 :: b1)
                 ++ js "'" ++ value1 ++ js "'" ++ post1
               = (w2 ++ [i2a; i2b]) ++ (s2 :: a2) ++ [e2a; e2b] ++ (t2 :: b2)
                 ++ js "'" ++ value2 ++ js "'" ++ post2).
  { repeat rewrite <- app_assoc in E. repeat rewrite <- app_assoc. exact E. }
  assert (Hid1 : forallb is_word (w1 ++ [i1a; i1b]) = true).
  { rewrite forallb_app, Hw1'. cbn [forallb andb].
    rewrite (proj1 (proj2 (char_classes i1a)) (or_introl Hi1a)),
            (proj1 (proj2 (char_classes i1b)) (or_intror Hi1b)). reflexivity. }
  assert (Hid2 : forallb is_word (w2 ++ [i2a; i2b]) = true).
  { rewrite forallb_app, Hw2'. cbn [forallb andb].
    rewrite (proj1 (proj2 (char_classes i2a)) (or_introl Hi2a)),
            (proj1 (proj2 (char_classes i2b)) (or_intror Hi2b)). reflexivity. }
  apply (@span_unique is_word) in E1; [|assumption|assumption| |].
  2,3: cbn [app]; apply char_classes; assumption.
  destruct E1 as [_ E1].
  (* the white space before [eq] *)
  apply (@span_unique is_space) in E1; [|assumption|assumption| |].
  2,3: cbn [app]; apply char_classes; assumption.
  destruct E1 as [_ E1].
  apply (f_equal (skipn 2)) in E1. cbn [app skipn] in E1.
  (* the white space behind [eq] and the quote *)
  change (t1 :: b1 ++ js "'" ++ value1 ++ js "'" ++ post1)
    with ((t1 :: b1) ++ "'"%char :: value1 ++ "'"%char :: post1) in E1.
  change (t2 :: b2 ++ js "'" ++ value2 ++ js "'" ++ post2)
    with ((t2 :: b2) ++ "'"%char :: value2 ++ "'"%char :: post2) in E1.
  apply (@span_unique is_space) in E1; [|assumption|assumption| |];
    [|reflexivity|reflexivity].
  destruct E1 as [_ E1]. injection E1 as E1.
  (* the value *)
  apply (@span_unique (fun c => negb (is_char "'" c))) in E1;
    [|assumption|assumption| |]; [|reflexivity|reflexivity].
  tauto.
Qed.

Lemma targetUrl_leftmost (u f pre value text post : str) :
  IdClause value text -> f = pre ++ text ++ post ->
  (forall pre' value' text' post',
     IdClause value' text' -> f = pre' ++ text' ++ post' ->
     length pre <= length pre') ->
  QueryToolController.targetUrl u f = u ++ js "(" ++ strip_braces value ++ js ")".
Proof.
  intros Hc Ef Hmin.
  destruct (idPattern_intro post Hc) as [m Hm].
  pose proof (@match_at_complete _ _ _ _ Hm) as Hhere.
  apply (@exec_complete QueryToolController.idPattern pre) in Hm.
  unfold QueryToolController.targetUrl. rewrite Ef.
  destruct (exec QueryToolController.idPattern (pre ++ text ++ post))
    as [[rest m']|] eqn:E; [|congruence].
  apply exec_leftmost in E. destruct E as (pre0 & suf0 & E0 & Hm0 & Hleft).
  apply match_at_sound, idPattern_elim in Hm0.
  destruct Hm0 as (value0 & text0 & Hc0 & -> & Hv).
  assert (Hlen : length pre = length pre0).
  { apply Nat.le_antisymm.
    - apply (Hmin pre0 value0 text0 rest Hc0). rewrite Ef. exact E0.
    - apply Nat.nlt_ge. intros Hlt.
      specialize (Hleft pre (text ++ post) eq_refl Hlt). congruence. }
  assert (Es : text ++ post = text0 ++ rest).
  { apply (f_equal (skipn (length pre))) in E0.
    rewrite skipn_app, skipn_all, Nat.sub_diag in E0. cbn [skipn app] in E0.
    rewrite Hlen, skipn_app, skipn_all, Nat.sub_diag in E0. exact E0. }
  rewrite Hv, formatId_strip.
  rewrite (IdClause_same_start _ _ Hc0 Hc (eq_sym Es)). reflexivity.
Qed.

(** C9 as the specification words it: the filter contains the clause
    [accountid eq '{123}'], and the request goes to the record [yes] of
    the clause [paid eq 'yes'] that stands before it. *)
Lemma direct_id_takes_first_clause :
  exists q,
    SqlParser.parse
      (js "UPDATE account SET name = 'X' WHERE paid eq 'yes' and accountid eq '{123}'")
    = Ok q /\
    filter q = Some (js "paid eq 'yes' and " ++ js "accountid eq '{123}'" ++ []) /\
    IdClause (js "{123}") (js "accountid eq '{123}'") /\
    url (QueryToolController.toRequest (js "https://org.crm.dynamics.com") q)
    = js "https://org.crm.dynamics.com/api/data/v9.2/account(yes)".
Proof.
  eexists. split; [vm_compute; reflexivity|]. split; [reflexivity|].
  split; [|vm_compute; reflexivity].
  exact (@id_clause (js "{123}") (js "account") (js "id") (js " ") (js "eq") (js " ")
           ltac:(discriminate) eq_refl eq_refl ltac:(discriminate) eq_refl eq_refl
           ltac:(discriminate) eq_refl ltac:(discriminate) eq_refl).
Qed.

(** C9, amended.  When the filter of an UPDATE or DELETE query contains a
    clause [<word>id eq '<value>'], the request goes to the collection URL
    followed by [(<id>)], where the id is the value, without its braces,
    of the leftmost such clause: the one that no other clause of the
    filter starts before.  The method is PATCH with the values as body for
    UPDATE, and DELETE without body for DELETE.  The statement of the
    specification parses to a query whose request is PATCH on
    [account(123)] with the body [{name: "X"}]. *)
Theorem direct_id_target (orgUrl : str) :
  (forall (q : ParsedQuery) (f pre value text post : str),
     operation q = UPDATE \/ operation q = DELETE ->
     filter q = Some f ->
     IdClause value text -> f = pre ++ text ++ post ->
     (forall pre' value' text' post',
        IdClause value' text' -> f = pre' ++ text' ++ post' ->
        length pre <= length pre') ->
     QueryToolController.toRequest orgUrl q
     = {| method := match operation q with
                    | UPDATE => js "PATCH"
                    | _ => js "DELETE"
                    end;
          url := QueryToolController.collectionUrl orgUrl q
                 ++ js "(" ++ strip_braces value ++ js ")";
          body := match operation q with
                  | UPDATE => values q
                  | _ => None
                  end |}) /\
  exists q,
    SqlParser.parse (js "UPDATE account SET name = 'X' WHERE accountid eq '{123}'")
    = Ok q /\
    QueryToolController.toRequest orgUrl q
    = {| method := js "PATCH";
         url := (orgUrl ++ js "/api/data/v9.2/account") ++ js "(123)";
         body := Some {| has_prototype := true;
                         props := [(js "name", VStr (js "X"))] |} |}.
Proof.
  split; [|eexists; split; [vm_compute; reflexivity | vm_compute; reflexivity]].
  intros q f pre value text post Hop Hf Hc Ef Hmin.
  assert (Hne : f <> []).
  { apply IdClause_nonempty in Hc. intros E. rewrite E in Ef.
    symmetry in Ef. apply app_eq_nil in Ef; destruct Ef as [_ Ef].
    apply app_eq_nil in Ef; destruct Ef; contradiction. }
  pose proof (@targetUrl_leftmost (QueryToolController.collectionUrl orgUrl q)
                f pre value text post Hc Ef Hmin) as Hu.
  unfold QueryToolController.toRequest, QueryToolController.buildQueryUrl.
  rewrite Hf. destruct f as [|x f]; [congruence|].
  destruct Hop as [-> | ->]; rewrite Hu; reflexivity.
Qed.

Lemma direct_id_target_witness :
  let q := {| operation := DELETE; entity := js "account"; fields := None;
              filter := Some (js "paid eq 'yes' and accountid eq '{123}'");
              orderBy := None; limit := None; values := None |} in
  IdClause (js "yes") (js "paid eq 'yes'") /\
  QueryToolController.toRequest (js "https://org.crm.dynamics.com") q
  = {| method := js "DELETE";
       url := QueryToolController.collectionUrl (js "https://org.crm.dynamics.com") q
              ++ js "(" ++ strip_braces (js "yes") ++ js ")";
       body := None |}.
Proof.
  intros q.
  assert (Hc : IdClause (js "yes") (js "paid eq 'yes'")).
  { exact (@id_clause (js "yes") (js "pa") (js "id") (js " ") (js "eq") (js " ")
             ltac:(discriminate) eq_refl eq_refl ltac:(discriminate) eq_refl eq_refl
             ltac:(discriminate) eq_refl ltac:(discriminate) eq_refl). }
  split; [exact Hc|].
  exact (proj1 (direct_id_target (js "https://org.crm.dynamics.com"))
           q (js "paid eq 'yes' and accountid eq '{123}'")
           [] (js "yes") (js "paid eq 'yes'") (js " and accountid eq '{123}'")
           (or_intror eq_refl) eq_refl Hc eq_refl
           (fun pre' _ _ _ _ _ => Nat.le_0_l (length pre'))).
Defined.

(** * Further properties of the code *)

(** ** [trim] and the terminated statement *)

Lemma trimStart_split (s : str) :
  exists p, s = p ++ trimStart s /\ forallb is_space p = true.
Proof.
  induction s as [|c s (p & E & Hp)]; [exists []; auto|].
  simpl. destruct (is_space c) eqn:Ec.
  - exists (c :: p). simpl. rewrite Ec, <- E. auto.
  - exists []. auto.
Qed.

Lemma trimStart_spaces (p s : str) :
  forallb is_space p = true -> trimStart (p ++ s) = trimStart s.
Proof.
  induction p as [|c p IH]; simpl; [reflexivity|].
  intros H; apply andb_true_iff in H; destruct H as [Hc Hp].
  rewrite Hc. auto.
Qed.

Lemma trimStart_all_spaces (s : str) :
  forallb is_space s = true -> trimStart s = [].
Proof.
  intros H. rewrite <- (app_nil_r s). rewrite trimStart_spaces by assumption.
  reflexivity.
Qed.

Lemma trimStart_head (s : str) c r :
  trimStart s = c :: r -> is_space c = false.
Proof.
  induction s as [|x s IH]; simpl; [discriminate|].
  destruct (is_space x) eqn:E; [exact IH|]. intros [= <- <-]; exact E.
Qed.

Lemma trimStart_keep c (s : str) :
  is_space c = false -> trimStart (c :: s) = c :: s.
Proof. intros H; simpl; rewrite H; reflexivity. Qed.

Lemma trimStart_idem (s : str) : trimStart (trimStart s) = trimStart s.
Proof.
  destruct (trimStart s) as [|c r] eqn:E; [reflexivity|].
  apply trimStart_keep. eapply trimStart_head; eassumption.
Qed.

Lemma trimStart_app_keep (u post : str) c r :
  trimStart u = c :: r -> trimStart (u ++ post) = trimStart u ++ post.
Proof.
  induction u as [|x u IH]; simpl; [discriminate|].
  destruct (is_space x); [exact IH | reflexivity].
Qed.

Lemma trimEnd_prefix (u : str) : exists q, u = trimEnd u ++ q.
Proof.
  unfold trimEnd. destruct (trimStart_split (rev u)) as (p & E & _).
  exists (rev p). rewrite <- rev_app_distr, <- E, rev_involutive. reflexivity.
Qed.

Lemma trimEnd_spaces (u post : str) :
  forallb is_space post = true -> trimEnd (u ++ post) = trimEnd u.
Proof.
  intros H. unfold trimEnd. rewrite rev_app_distr.
  rewrite trimStart_spaces; [reflexivity|].
  rewrite forallb_forall in *. intros x Hx. apply H, in_rev, Hx.
Qed.

Lemma trimEnd_idem (u : str) : trimEnd (trimEnd u) = trimEnd u.
Proof. unfold trimEnd. rewrite rev_involutive, trimStart_idem. reflexivity. Qed.

Lemma trimEnd_keep (u : str) c :
  is_space c = false -> trimEnd (u ++ [c]) = u ++ [c].
Proof.
  intros H. unfold trimEnd. rewrite rev_app_distr. simpl. rewrite H.
  simpl. rewrite rev_involutive. reflexivity.
Qed.

Lemma trim_head (s : str) c r : trim s = c :: r -> is_space c = false.
Proof.
  unfold trim. intros E.
  destruct (trimEnd_prefix (trimStart s)) as [q Eq]. rewrite E in Eq.
  simpl in Eq. eapply trimStart_head; eassumption.
Qed.

Lemma trim_idem (s : str) : trim (trim s) = trim s.
Proof.
  destruct (trim s) as [|c r] eqn:E; [reflexivity|].
  pose proof (trim_head _ E) as Hc.
  unfold trim at 1. rewrite trimStart_keep by assumption.
  rewrite <- E. unfold trim. apply trimEnd_idem.
Qed.

Lemma trim_spaces_around (pre s post : str) :
  forallb is_space pre = true -> forallb is_space post = true ->
  trim (pre ++ s ++ post) = trim s.
Proof.
  intros Hpre Hpost. unfold trim. rewrite trimStart_spaces by assumption.
  destruct (trimStart s) as [|c r] eqn:E.
  - destruct (trimStart_split s) as (p & Es & Hp). rewrite E, app_nil_r in Es.
    subst p. rewrite trimStart_all_spaces; [reflexivity|].
    rewrite forallb_app, Hp, Hpost. reflexivity.
  - rewrite (trimStart_app_keep _ post E), E. apply trimEnd_spaces; assumption.
Qed.

Lemma trim_all_spaces (s : str) : forallb is_space s = true -> trim s = [].
Proof. intros H. unfold trim. rewrite trimStart_all_spaces by assumption. reflexivity. Qed.

Lemma startsWith_app (p s : str) : startsWith (p ++ s) p = true.
Proof.
  induction p as [|a p IH]; simpl; [destruct s; reflexivity|].
  rewrite Ascii.eqb_refl. exact IH.
Qed.

Lemma endsWith_app (s p : str) : endsWith (s ++ p) p = true.
Proof. unfold endsWith. rewrite rev_app_distr. apply startsWith_app. Qed.

Lemma terminated_ends (sql : str) :
  endsWith (SqlParser.terminated sql) (js ";") = true.
Proof.
  unfold SqlParser.terminated.
  destruct (endsWith (trim sql) (js ";")) eqn:E; [exact E | apply endsWith_app].
Qed.

Lemma trim_terminated (sql : str) :
  trim (SqlParser.terminated sql) = SqlParser.terminated sql.
Proof.
  unfold SqlParser.terminated.
  destruct (endsWith (trim sql) (js ";")); [apply trim_idem|].
  destruct (trim sql) as [|c r] eqn:E; [reflexivity|].
  pose proof (trim_head _ E) as Hc.
  unfold trim. change ((c :: r) ++ js ";") with (c :: (r ++ js ";")).
  rewrite trimStart_keep by assumption.
  change (c :: r ++ js ";") with ((c :: r) ++ [";"%char]).
  apply trimEnd_keep. reflexivity.
Qed.

Lemma terminated_idem (sql : str) :
  SqlParser.terminated (SqlParser.terminated sql) = SqlParser.terminated sql.
Proof.
  unfold SqlParser.terminated at 1.
  rewrite trim_terminated, terminated_ends. reflexivity.
Qed.

(** X1.  White space around a statement and the closing [;] make no
    difference to [parse]: the statement with white space added on either
    side, and the statement as [parse] terminates it (trimmed, ending in
    [;]), parse to the same result, value or error. *)
Theorem parse_ignores_padding (pre sql post : str) :
  forallb is_space pre = true -> forallb is_space post = true ->
  SqlParser.parse (pre ++ sql ++ post) = SqlParser.parse sql /\
  SqlParser.parse (SqlParser.terminated sql) = SqlParser.parse sql /\
  endsWith (SqlParser.terminated sql) (js ";") = true.
Proof.
  intros Hpre Hpost. split; [|split; [|apply terminated_ends]].
  - unfold SqlParser.parse, SqlParser.terminated.
    rewrite trim_spaces_around by assumption. reflexivity.
  - unfold SqlParser.parse. rewrite terminated_idem. reflexivity.
Qed.

Lemma parse_ignores_padding_witness :
  SqlParser.parse (js "  " ++ js "DELETE FROM account" ++ js " ")
  = SqlParser.parse (js "DELETE FROM account") /\
  SqlParser.parse (SqlParser.terminated (js "DELETE FROM account"))
  = SqlParser.parse (js "DELETE FROM account") /\
  endsWith (SqlParser.terminated (js "DELETE FROM account")) (js ";") = true.
Proof.
  apply (@parse_ignores_padding (js "  ") (js "DELETE FROM account") (js " "));
    reflexivity.
Defined.

(** X2.  A statement that is empty or made of white space only is refused
    as an unsupported operation. *)
Theorem parse_blank (sql : str) :
  forallb is_space sql = true ->
  SqlParser.parse sql = Err SqlParser.UnsupportedOperation.
Proof.
  intros H. unfold SqlParser.parse, SqlParser.terminated.
  rewrite (trim_all_spaces _ H). reflexivity.
Qed.

Lemma parse_blank_witness :
  SqlParser.parse (js "   ") = Err SqlParser.UnsupportedOperation.
Proof. apply parse_blank. reflexivity. Defined.

(** ** The shape of a parsed query *)

Lemma replace_from_S fuel r (rep s : str) :
  replace_from (S fuel) r rep s
  = match match_at r s with
    | Some (rest, _) =>
        if length rest <? length s
        then rep ++ replace_from fuel r rep rest
        else rep ++ match s with
                    | [] => []
                    | x :: s' => x :: replace_from fuel r rep s'
                    end
    | None => match s with
              | [] => []
              | x :: s' => x :: replace_from fuel r rep s'
              end
    end.
Proof. reflexivity. Qed.

Lemma replace_all_nonempty r (rep s : str) :
  rep <> [] -> s <> [] -> replace_all r rep s <> [].
Proof.
  intros Hrep Hs. unfold replace_all. rewrite replace_from_S.
  destruct (match_at r s) as [[rest m]|].
  - destruct rep as [|y rep]; [congruence|].
    destruct (length rest <? length s); intros E; discriminate E.
  - destruct s as [|x s]; [congruence|]. intros E; discriminate E.
Qed.

Lemma whereRules_replacements :
  Forall (fun rule : regex * str => snd rule <> []) SqlParser.whereRules.
Proof.
  unfold SqlParser.whereRules.
  repeat (apply Forall_cons; [cbn [snd]; intros E; discriminate E|]).
  apply Forall_nil.
Qed.

Lemma fold_replace_nonempty (rules : list (regex * str)) :
  Forall (fun rule : regex * str => snd rule <> []) rules ->
  forall s, s <> [] ->
  fold_left (fun s rule => replace_all (fst rule) (snd rule) s) rules s <> [].
Proof.
  induction 1 as [|rule rules Hrule _ IH]; intros s Hs; cbn [fold_left];
    [exact Hs|].
  apply IH. apply replace_all_nonempty; assumption.
Qed.

(** The statements about [translateWhereClause] on an arbitrary clause are
    kept in sections that do not infer implicit arguments. *)
Section TranslateNonEmpty.

Unset Implicit Arguments.

Lemma translate_fold (whereClause : str) :
  SqlParser.translateWhereClause whereClause
  = fold_left (fun s rule => replace_all (fst rule) (snd rule) s)
              SqlParser.whereRules whereClause.
Proof. reflexivity. Qed.

Lemma translate_nonempty (whereClause : str) :
  whereClause <> [] -> SqlParser.translateWhereClause whereClause <> [].
Proof.
  intros H. rewrite translate_fold.
  exact (@fold_replace_nonempty _ whereRules_replacements _ H).
Qed.

End TranslateNonEmpty.

Lemma parsed_filter_nonempty (whereClause : option str) :
  (if truthy whereClause
   then option_map SqlParser.translateWhereClause whereClause
   else None) <> Some [].
Proof.
  destruct whereClause as [[|c w]|]; cbn [truthy option_map];
    [discriminate | | discriminate].
  intros E.
  assert (E' : SqlParser.translateWhereClause (c :: w) = []) by congruence.
  revert E'. apply translate_nonempty. discriminate.
Qed.

Lemma cap_grows i r s c s1 c1 :
  Matches r s c s1 c1 -> cap i c <> None -> cap i c1 <> None.
Proof.
  induction 1; auto. simpl. intros Hc.
  destruct (Nat.eqb i0 i); [discriminate | auto].
Qed.

Lemma sets_sound i r s c s1 c1 :
  Matches r s c s1 c1 -> sets i r -> cap i c1 <> None.
Proof.
  induction 1; simpl; try tauto.
  - intros [Ha|Hb]; [|auto]. eapply cap_grows; eauto.
  - intros [Hj|Ha].
    + apply Nat.eqb_eq in Hj. rewrite Hj. discriminate.
    + destruct (Nat.eqb i0 i); [discriminate | auto].
Qed.

Lemma exec_sets i r s rest m :
  sets i r -> exec r s = Some (rest, m) -> cap i m <> None.
Proof.
  intros Hs He. apply exec_sound in He. destruct He as (pre & suf & _ & Hm).
  eapply sets_sound; eassumption.
Qed.

Ltac sets_tac := simpl; tauto.

Lemma parseSet_error (l : list str) : forall o e,
  SqlParser.parseSet o l = Err e ->
  e = TypeError /\ Exists (fun a => ~ In "="%char a) l.
Proof.
  induction l as [|a l IH]; simpl; intros o e H; [discriminate|].
  destruct (in_dec ascii_dec "="%char a) as [Hin|Hout].
  - rewrite (assign_spec _ _ Hin) in H; simpl in H.
    apply IH in H. destruct H; auto.
  - rewrite (assign_no_equals _ _ Hout) in H. injection H as <-. auto.
Qed.

Lemma parseSet_total (l : list str) : forall o,
  Exists (fun a => ~ In "="%char a) l ->
  SqlParser.parseSet o l = Err TypeError.
Proof.
  induction l as [|a l IH]; intros o H; [inversion H|]. simpl.
  destruct (in_dec ascii_dec "="%char a) as [Hin|Hout].
  - rewrite (assign_spec _ _ Hin); simpl. apply IH.
    inversion H; subst; [contradiction | assumption].
  - rewrite (assign_no_equals _ _ Hout). reflexivity.
Qed.

Lemma parseSelect_no_TypeError sql : SqlParser.parseSelect sql <> Err TypeError.
Proof.
  unfold SqlParser.parseSelect.
  destruct (exec SqlParser.selectPattern sql) as [[rest m]|] eqn:E; [|discriminate].
  pose proof (@exec_sets 1 SqlParser.selectPattern _ _ _ ltac:(sets_tac) E).
  pose proof (@exec_sets 2 SqlParser.selectPattern _ _ _ ltac:(sets_tac) E).
  destruct (cap 1 m); [|congruence]. destruct (cap 2 m); [|congruence].
  discriminate.
Qed.

Lemma parseInsert_no_TypeError sql : SqlParser.parseInsert sql <> Err TypeError.
Proof.
  unfold SqlParser.parseInsert.
  destruct (exec SqlParser.insertPattern sql) as [[rest m]|] eqn:E; [|discriminate].
  pose proof (@exec_sets 1 SqlParser.insertPattern _ _ _ ltac:(sets_tac) E).
  pose proof (@exec_sets 2 SqlParser.insertPattern _ _ _ ltac:(sets_tac) E).
  pose proof (@exec_sets 3 SqlParser.insertPattern _ _ _ ltac:(sets_tac) E).
  destruct (cap 1 m); [|congruence]. destruct (cap 2 m); [|congruence].
  destruct (cap 3 m); [|congruence]. discriminate.
Qed.

Lemma parseDelete_no_TypeError sql : SqlParser.parseDelete sql <> Err TypeError.
Proof.
  unfold SqlParser.parseDelete.
  destruct (exec SqlParser.deletePattern sql) as [[rest m]|] eqn:E; [|discriminate].
  pose proof (@exec_sets 1 SqlParser.deletePattern _ _ _ ltac:(sets_tac) E).
  destruct (cap 1 m); [|congruence]. discriminate.
Qed.

Lemma parseUpdate_TypeError sql :
  SqlParser.parseUpdate sql = Err TypeError <->
  exists rest m setClause,
    exec SqlParser.updatePattern sql = Some (rest, m) /\
    cap 2 m = Some setClause /\
    Exists (fun a => ~ In "="%char a) (split "," setClause).
Proof.
  unfold SqlParser.parseUpdate.
  destruct (exec SqlParser.updatePattern sql) as [[rest m]|] eqn:E.
  - pose proof (@exec_sets 1 SqlParser.updatePattern _ _ _ ltac:(sets_tac) E) as H1.
    pose proof (@exec_sets 2 SqlParser.updatePattern _ _ _ ltac:(sets_tac) E) as H2.
    destruct (cap 1 m) as [e|]; [|congruence].
    destruct (cap 2 m) as [setClause|] eqn:E2; [|congruence].
    split.
    + destruct (SqlParser.parseSet _ _) as [o|err] eqn:Es; simpl; [discriminate|].
      intros _. apply parseSet_error in Es. destruct Es as [_ Hex].
      exists rest, m, setClause. auto.
    + intros (rest' & m' & setClause' & [= <- <-] & Ec & Hex).
      rewrite E2 in Ec. injection Ec as <-.
      rewrite (@parseSet_total _ _ Hex). reflexivity.
  - split; [discriminate|]. intros (rest' & m' & sc & Hx & _). discriminate.
Qed.

Lemma begins_ci_first (kw s : str) k :
  begins_ci (k :: kw) s = true ->
  exists c r, s = c :: r /\ (c = k \/ c = lower_char k).
Proof.
  destruct s as [|c r]; simpl; [discriminate|]. intros H.
  apply andb_true_iff in H. destruct H as [H _].
  apply orb_true_iff in H. exists c, r. split; [reflexivity|].
  destruct H as [H|H]; apply Ascii.eqb_eq in H; auto.
Qed.

Lemma begins_UPDATE_only (s : str) :
  begins_ci (js "UPDATE") s = true ->
  begins_ci (js "SELECT") s = false /\ begins_ci (js "INSERT") s = false.
Proof.
  intros H. apply begins_ci_first in H. destruct H as (c & r & -> & [-> | ->]);
    split; reflexivity.
Qed.

(** X3.  [parse] reports a [TypeError] exactly when the statement goes to
    the UPDATE grammar, matches it, and one of the comma-separated pieces
    of its SET clause has no [=] in it.  The SELECT, INSERT and DELETE
    grammars never do. *)
Theorem type_error_from_set_only (sql : str) :
  SqlParser.parse sql = Err TypeError <->
  begins_ci (js "UPDATE") (trim sql) = true /\
  exists rest m setClause,
    exec SqlParser.updatePattern (SqlParser.terminated sql) = Some (rest, m) /\
    cap 2 m = Some setClause /\
    Exists (fun a => ~ In "="%char a) (split "," setClause).
Proof.
  unfold SqlParser.parse. rewrite !startsWith_terminated by reflexivity.
  destruct (begins_ci (js "UPDATE") (trim sql)) eqn:Eu.
  - destruct (begins_UPDATE_only _ Eu) as [-> ->].
    rewrite parseUpdate_TypeError. tauto.
  - split; [|intros [H _]; discriminate].
    destruct (begins_ci (js "SELECT") (trim sql));
      [intros H; apply parseSelect_no_TypeError in H; contradiction|].
    destruct (begins_ci (js "INSERT") (trim sql));
      [intros H; apply parseInsert_no_TypeError in H; contradiction|].
    destruct (begins_ci (js "DELETE") (trim sql));
      [intros H; apply parseDelete_no_TypeError in H; contradiction|].
    discriminate.
Qed.

Lemma type_error_from_set_only_witness :
  SqlParser.parse (js "UPDATE t SET a = 1, b") = Err TypeError.
Proof.
  apply (proj2 (type_error_from_set_only (js "UPDATE t SET a = 1, b"))).
  split; [reflexivity|].
  exists [], [(2, js "a = 1, b"); (1, js "t")], (js "a = 1, b").
  split; [vm_compute; reflexivity|]. split; [reflexivity|].
  apply Exists_cons_tl, Exists_cons_hd. vm_compute.
  intros [H|[H|[]]]; discriminate.
Defined.

Lemma parseSelect_shape sql q :
  SqlParser.parseSelect sql = Ok q ->
  operation q = SELECT /\ filter q <> Some [] /\
  (exists fs, fields q = Some fs) /\ values q = None.
Proof.
  unfold SqlParser.parseSelect.
  destruct (exec SqlParser.selectPattern sql) as [[rest m]|]; [|discriminate].
  destruct (cap 1 m); [|discriminate]. destruct (cap 2 m); [|discriminate].
  intros [= <-]; simpl. repeat split; eauto. apply parsed_filter_nonempty.
Qed.

Lemma parseInsert_shape sql q :
  SqlParser.parseInsert sql = Ok q ->
  operation q = INSERT /\ filter q = None /\
  (exists o, values q = Some o) /\
  fields q = None /\ orderBy q = None /\ limit q = None.
Proof.
  unfold SqlParser.parseInsert.
  destruct (exec SqlParser.insertPattern sql) as [[rest m]|]; [|discriminate].
  destruct (cap 1 m); [|discriminate]. destruct (cap 2 m); [|discriminate].
  destruct (cap 3 m); [|discriminate].
  intros [= <-]; simpl. repeat split; eauto.
Qed.

Lemma parseUpdate_shape sql q :
  SqlParser.parseUpdate sql = Ok q ->
  operation q = UPDATE /\ filter q <> Some [] /\
  (exists o, values q = Some o) /\
  fields q = None /\ orderBy q = None /\ limit q = None.
Proof.
  unfold SqlParser.parseUpdate.
  destruct (exec SqlParser.updatePattern sql) as [[rest m]|]; [|discriminate].
  destruct (cap 1 m); [|discriminate]. destruct (cap 2 m); [|discriminate].
  destruct (SqlParser.parseSet _ _); simpl; [|discriminate].
  intros [= <-]; simpl. repeat split; eauto. apply parsed_filter_nonempty.
Qed.

Lemma parseDelete_shape sql q :
  SqlParser.parseDelete sql = Ok q ->
  operation q = DELETE /\ filter q <> Some [] /\
  values q = None /\ fields q = None /\ orderBy q = None /\ limit q = None.
Proof.
  unfold SqlParser.parseDelete.
  destruct (exec SqlParser.deletePattern sql) as [[rest m]|]; [|discriminate].
  destruct (cap 1 m); [|discriminate].
  intros [= <-]; simpl. repeat split; eauto. apply parsed_filter_nonempty.
Qed.

(** X4.  A query returned by [parse] has the members of its operation and
    no others: the operation is the keyword that the trimmed statement
    begins with; a SELECT has [fields] and no [values]; an INSERT has
    [values] and nothing else; an UPDATE has [values] and may have a
    [filter]; a DELETE may have a [filter] and has nothing else.  A
    [filter] that is present is never the empty string. *)
Theorem parsed_query_shape (sql : str) (q : ParsedQuery) :
  SqlParser.parse sql = Ok q ->
  begins_ci (keyword (operation q)) (trim sql) = true /\
  filter q <> Some [] /\
  match operation q with
  | SELECT => (exists fs, fields q = Some fs) /\ values q = None
  | INSERT => (exists o, values q = Some o) /\ fields q = None /\
              filter q = None /\ orderBy q = None /\ limit q = None
  | UPDATE => (exists o, values q = Some o) /\ fields q = None /\
              orderBy q = None /\ limit q = None
  | DELETE => values q = None /\ fields q = None /\
              orderBy q = None /\ limit q = None
  end.
Proof.
  unfold SqlParser.parse. rewrite !startsWith_terminated by reflexivity.
  destruct (begins_ci (js "SELECT") (trim sql)) eqn:Es.
  { intros H. apply parseSelect_shape in H. destruct H as (-> & Hf & Hfs & Hv).
    cbn [keyword]. repeat split; assumption. }
  destruct (begins_ci (js "INSERT") (trim sql)) eqn:Ei.
  { intros H. apply parseInsert_shape in H.
    destruct H as (-> & Hf & Hv & Hfs & Ho & Hl). cbn [keyword].
    repeat split; try assumption. rewrite Hf; discriminate. }
  destruct (begins_ci (js "UPDATE") (trim sql)) eqn:Eu.
  { intros H. apply parseUpdate_shape in H.
    destruct H as (-> & Hf & Hv & Hfs & Ho & Hl). cbn [keyword].
    repeat split; assumption. }
  destruct (begins_ci (js "DELETE") (trim sql)) eqn:Ed; [|discriminate].
  intros H. apply parseDelete_shape in H.
  destruct H as (-> & Hf & Hv & Hfs & Ho & Hl). cbn [keyword].
  repeat split; assumption.
Qed.

Lemma parsed_query_shape_witness :
  exists q,
    SqlParser.parse (js "update account set name = 'X' where accountid = '1'") = Ok q /\
    begins_ci (keyword (operation q))
              (trim (js "update account set name = 'X' where accountid = '1'")) = true /\
    filter q <> Some [].
Proof.
  eexists. split; [vm_compute; reflexivity|].
  split;
    [exact (proj1 (@parsed_query_shape
              (js "update account set name = 'X' where accountid = '1'") _ eq_refl))
    | exact (proj1 (proj2 (@parsed_query_shape
              (js "update account set name = 'X' where accountid = '1'") _ eq_refl)))].
Defined.

(** ** What a SELECT statement yields *)

Set Implicit Arguments.

Lemma parse_select_inv (sql : str) (q : ParsedQuery) :
  SqlParser.parse sql = Ok q -> operation q = SELECT ->
  SqlParser.parseSelect (SqlParser.terminated sql) = Ok q.
Proof.
  unfold SqlParser.parse.
  destruct (startsWith _ (js "SELECT")); [auto|].
  destruct (startsWith _ (js "INSERT")).
  { intros H Hop. apply parseInsert_shape in H. destruct H as [H _]. congruence. }
  destruct (startsWith _ (js "UPDATE")).
  { intros H Hop. apply parseUpdate_shape in H. destruct H as [H _]. congruence. }
  destruct (startsWith _ (js "DELETE")); [|discriminate].
  intros H Hop. apply parseDelete_shape in H. destruct H as [H _]. congruence.
Qed.

Lemma split_no_sep (sep : ascii) (s : str) :
  forall part, In part (split sep s) -> ~ In sep part.
Proof.
  induction s as [|c s IH]; simpl; intros part H.
  - destruct H as [<-|[]]. auto.
  - destruct (Ascii.eqb c sep) eqn:E.
    + destruct H as [<-|H]; auto.
    + destruct (split sep s) as [|h t] eqn:Es.
      * destruct H as [<-|[]]. intros [->|[]]. rewrite Ascii.eqb_refl in E. discriminate.
      * destruct H as [<-|H].
        -- intros [->|Hin]; [rewrite Ascii.eqb_refl in E; discriminate|].
           revert Hin. apply IH. left; reflexivity.
        -- apply IH. right; exact H.
Qed.

Lemma trim_incl (s : str) c : In c (trim s) -> In c s.
Proof.
  unfold trim. intros H.
  destruct (trimEnd_prefix (trimStart s)) as [q Eq].
  destruct (trimStart_split s) as (p & Es & _).
  rewrite Es, Eq. apply in_or_app. right. apply in_or_app. left. exact H.
Qed.



Lemma digit_not_space (c : ascii) : is_digit c = true -> is_space c = false.
Proof.
  assert (H : forallb (fun c => implb (is_digit c) (negb (is_space c))) all_chars
              = true) by (vm_compute; reflexivity).
  rewrite forallb_forall in H. specialize (H c (all_chars_complete c)).
  intros Hc; rewrite Hc in H; simpl in H. apply negb_true_iff in H; exact H.
Qed.




(** X5.  The [fields] of a parsed SELECT are never an empty list; every
    field is free of commas and has no white space at either end.  (A
    field can be the empty string.) *)
Theorem select_fields (sql : str) (q : ParsedQuery) :
  SqlParser.parse sql = Ok q -> operation q = SELECT ->
  exists f fs,
    fields q = Some (f :: fs) /\
    Forall (fun x => trim x = x /\ ~ In ","%char x) (f :: fs).
Proof.
  intros H Hop. apply parse_select_inv in H; [|exact Hop]. revert H.
  unfold SqlParser.parseSelect.
  destruct (exec SqlParser.selectPattern _) as [[rest m]|]; [|discriminate].
  destruct (cap 1 m) as [fieldsStr|]; [|discriminate].
  destruct (cap 2 m); [|discriminate].
  intros [= <-]; simpl.
  assert (Hall : Forall (fun x => trim x = x /\ ~ In ","%char x)
                        (map trim (split "," fieldsStr))).
  { apply Forall_forall. intros x Hx. apply in_map_iff in Hx.
    destruct Hx as (part & <- & Hpart). split; [apply trim_idem|].
    intros Hin. apply trim_incl in Hin.
    exact (@split_no_sep ","%char fieldsStr part Hpart Hin). }
  destruct (split_head "," fieldsStr) as [t Et]. rewrite Et in *. simpl in *.
  eexists _, _. split; [reflexivity | exact Hall].
Qed.

Lemma select_fields_witness :
  exists q,
    SqlParser.parse (js "SELECT name , , accountid FROM account") = Ok q /\
    exists f fs,
      fields q = Some (f :: fs) /\
      Forall (fun x => trim x = x /\ ~ In ","%char x) (f :: fs).
Proof.
  eexists. split; [vm_compute; reflexivity|].
  exact (@select_fields (js "SELECT name , , accountid FROM account") _
           eq_refl eq_refl).
Defined.



(** ** The typing of literals *)

Lemma startsWith_nil (s : str) : startsWith s [] = true.
Proof. destruct s; reflexivity. Qed.

Lemma substring_inner (t : str) :
  substring 1 (length (js "'" ++ t ++ js "'") - 1) (js "'" ++ t ++ js "'") = t.
Proof.
  unfold substring.
  assert (L : length (js "'" ++ t ++ js "'") = S (S (length t))).
  { simpl. rewrite length_app. simpl. lia. }
  rewrite L.
  replace (Nat.min 1 (S (S (length t)))) with 1 by lia.
  replace (Nat.min (S (S (length t)) - 1) (S (S (length t)))) with (S (length t)) by lia.
  replace (Nat.min 1 (S (length t))) with 1 by lia.
  replace (Nat.max 1 (S (length t)) - 1) with (length t) by lia.
  simpl. rewrite firstn_app, Nat.sub_diag, firstn_all. simpl. apply app_nil_r.
Qed.

(** X7.  A value written between single quotes is the string between the
    quotes, whatever that text is (digits, [true], further quotes): nothing
    is unescaped.  The one-character token ['] is the string [']. *)
Theorem literal_quoted (t : str) :
  SqlParser.literal (js "'" ++ t ++ js "'") = VStr t /\
  SqlParser.literal (js "'") = VStr (js "'").
Proof.
  split; [|reflexivity]. unfold SqlParser.literal.
  assert (Hs : startsWith (js "'" ++ t ++ js "'") (js "'") = true)
    by (simpl; apply startsWith_nil).
  assert (He : endsWith (js "'" ++ t ++ js "'") (js "'") = true)
    by (rewrite app_assoc; apply endsWith_app).
  rewrite Hs, He. simpl andb. cbv iota. rewrite substring_inner. reflexivity.
Qed.

Lemma lower_char_cases (c k : ascii) :
  is_lower k = true -> lower_char c = k -> c = k \/ c = upper_char k.
Proof.
  assert (H : forallb (fun c => forallb (fun k =>
                implb (is_lower k && Ascii.eqb (lower_char c) k)
                      (Ascii.eqb c k || Ascii.eqb c (upper_char k)))
                all_chars) all_chars = true) by (vm_compute; reflexivity).
  rewrite forallb_forall in H. specialize (H c (all_chars_complete c)).
  rewrite forallb_forall in H. specialize (H k (all_chars_complete k)).
  intros Hk E. rewrite Hk, E, Ascii.eqb_refl in H. simpl in H.
  apply orb_true_iff in H. destruct H as [H|H]; apply Ascii.eqb_eq in H; auto.
Qed.

Ltac case_letters :=
  repeat match goal with
         | H : lower_char ?c = ?k |- _ =>
             apply lower_char_cases in H; [destruct H; subst c | reflexivity]
         end.

(** X8.  The words [true], [false] and [null] are recognised in any mix of
    upper and lower case and become the two booleans and [null]. *)
Theorem literal_keywords (t : str) :
  (toLowerCase t = js "true" -> SqlParser.literal t = VBool true) /\
  (toLowerCase t = js "false" -> SqlParser.literal t = VBool false) /\
  (toLowerCase t = js "null" -> SqlParser.literal t = VNull).
Proof.
  repeat split; intros H.
  - destruct t as [|a [|b [|c [|d [|? ?]]]]]; try discriminate.
    injection H as Ha Hb Hc Hd. case_letters; reflexivity.
  - destruct t as [|a [|b [|c [|d [|e [|? ?]]]]]]; try discriminate.
    injection H as Ha Hb Hc Hd He. case_letters; reflexivity.
  - destruct t as [|a [|b [|c [|d [|? ?]]]]]; try discriminate.
    injection H as Ha Hb Hc Hd. case_letters; reflexivity.
Qed.

Lemma literal_keywords_witness :
  SqlParser.literal (js "TrUe") = VBool true /\
  SqlParser.literal (js "NULL") = VNull.
Proof.
  split.
  - apply (proj1 (literal_keywords (js "TrUe"))). reflexivity.
  - apply (proj2 (proj2 (literal_keywords (js "NULL")))). reflexivity.
Defined.

Lemma trim_no_space (s : str) :
  forallb (fun c => negb (is_space c)) s = true -> trim s = s.
Proof.
  intros H.
  assert (Hs : forall u, forallb (fun c => negb (is_space c)) u = true ->
                         trimStart u = u).
  { intros [|c u] Hu; [reflexivity|]. simpl in Hu.
    apply andb_true_iff in Hu. destruct Hu as [Hc _].
    apply negb_true_iff in Hc. apply trimStart_keep. exact Hc. }
  unfold trim, trimEnd. rewrite (Hs s H). rewrite Hs; [apply rev_involutive|].
  rewrite forallb_forall in *. intros x Hx. apply H, in_rev, Hx.
Qed.

Lemma digit_not_quote (c : ascii) : is_digit c = true -> Ascii.eqb c "'" = false.
Proof.
  assert (H : forallb (fun c => implb (is_digit c) (negb (Ascii.eqb c "'")))
                      all_chars = true) by (vm_compute; reflexivity).
  rewrite forallb_forall in H. specialize (H c (all_chars_complete c)).
  intros Hc; rewrite Hc in H; simpl in H. apply negb_true_iff in H; exact H.
Qed.

Lemma digits_are_number (d : str) :
  d <> [] -> forallb is_digit d = true -> is_number d = true.
Proof.
  intros Hne Hd. unfold is_number.
  rewrite trim_no_space.
  2:{ rewrite forallb_forall in *. intros x Hx.
      rewrite (digit_not_space _ (Hd x Hx)). reflexivity. }
  destruct d as [|c d]; [congruence|]. unfold full_match.
  destruct (rmatch numeric_literal (c :: d) [] _) eqn:E; [reflexivity|].
  exfalso. revert E.
  apply (@rmatch_complete unit numeric_literal (c :: d) [] [] []);
    [|discriminate].
  unfold numeric_literal. apply M_AltL.
  eapply M_Seq; [apply M_OptSkip|].
  unfold unsigned_decimal. apply M_AltR, M_AltR, M_AltR. cbn [cat].
  eapply M_Seq; [|apply M_OptSkip].
  rewrite <- (app_nil_r (c :: d)) at 1.
  apply plus_chr_intro; [discriminate | exact Hd].
Qed.

(** X9.  A value made of decimal digits only is typed as the number that
    the digits spell, never as a string. *)
Theorem literal_digits (d : str) :
  d <> [] -> forallb is_digit d = true -> SqlParser.literal d = VNum d.
Proof.
  intros Hne Hd. unfold SqlParser.literal.
  rewrite (digits_are_number Hne Hd).
  destruct d as [|c d]; [congruence|].
  simpl in Hd. apply andb_true_iff in Hd. destruct Hd as [Hc _].
  simpl startsWith. rewrite (digit_not_quote _ Hc). reflexivity.
Qed.

Lemma literal_digits_witness : SqlParser.literal (js "1000") = VNum (js "1000").
Proof. apply literal_digits; [discriminate | reflexivity]. Defined.

(** ** What [translateWhereClause] leaves and removes *)

Lemma match_at_suffix r s rest m :
  match_at r s = Some (rest, m) -> exists w, s = w ++ rest.
Proof. intros H. apply match_at_sound, Matches_suffix in H. exact H. Qed.

Lemma replace_from_chars r (rep : str) c : forall fuel s,
  In c (replace_from fuel r rep s) -> In c rep \/ In c s.
Proof.
  induction fuel as [|fuel IH]; intros s; [simpl; auto|].
  rewrite replace_from_S.
  assert (Hskip : In c match s with
                       | [] => []
                       | x :: s' => x :: replace_from fuel r rep s'
                       end -> In c rep \/ In c s).
  { destruct s as [|x s']; [simpl; auto|]. intros [->|H]; [right; left; reflexivity|].
    apply IH in H. destruct H; [left | right; right]; assumption. }
  destruct (match_at r s) as [[rest m]|] eqn:E; [|exact Hskip].
  apply match_at_suffix in E. destruct E as [w ->].
  destruct (length rest <? length (w ++ rest)); intros H;
    apply in_app_or in H; destruct H as [H|H]; auto.
  apply IH in H. destruct H; [left | right; apply in_or_app; right]; assumption.
Qed.

Lemma replace_all_keeps_out r (rep s : str) a :
  ~ In a rep -> ~ In a s -> ~ In a (replace_all r rep s).
Proof.
  intros Hrep Hs H. apply replace_from_chars in H. tauto.
Qed.

(** The rule for a one-character operator: [\s*a\s*]. *)
Lemma operator_rule_consumes a s rest m :
  match_at (cat [ws_star; Lit [a]; ws_star]) s = Some (rest, m) ->
  length rest < length s.
Proof.
  intros H. apply match_at_sound in H. cbn [cat Lit] in H.
  apply Matches_Seq_inv in H. destruct H as (s1 & c1 & H1 & H).
  apply Matches_Seq_inv in H. destruct H as (s2 & c2 & H2 & H3).
  apply Matches_Seq_inv in H2. destruct H2 as (s3 & c3 & Hc & He).
  apply Matches_Chr_inv in Hc. destruct Hc as (x & -> & _ & _).
  apply Matches_suffix in H1, He, H3.
  destruct H1 as [w1 ->], He as [w2 ->], H3 as [w3 ->].
  rewrite !length_app. simpl. rewrite !length_app. lia.
Qed.

Lemma operator_rule_finds a s :
  match_at (cat [ws_star; Lit [a]; ws_star]) (a :: s) <> None.
Proof.
  apply (@match_at_complete _ _ s []). cbn [cat Lit].
  eapply M_Seq; [apply M_StarStop|].
  eapply M_Seq; [|apply M_StarStop].
  eapply M_Seq; [|apply M_Eps].
  apply M_Chr. unfold is_char. apply Ascii.eqb_refl.
Qed.

Lemma operator_rule_removes a (rep : str) : forall fuel s,
  length s < fuel -> ~ In a rep ->
  ~ In a (replace_from fuel (cat [ws_star; Lit [a]; ws_star]) rep s).
Proof.
  induction fuel as [|fuel IH]; intros s Hf Hrep; [lia|].
  rewrite replace_from_S.
  destruct (match_at _ s) as [[rest m]|] eqn:E.
  - pose proof (operator_rule_consumes _ _ E) as Hlt.
    apply Nat.ltb_lt in Hlt. rewrite Hlt. apply Nat.ltb_lt in Hlt.
    intros H. apply in_app_or in H. destruct H as [H|H]; [tauto|].
    revert H. apply IH; [lia | exact Hrep].
  - destruct s as [|x s']; [simpl; auto|].
    intros [->|H]; [exact (operator_rule_finds a s' E)|].
    revert H. apply IH; [simpl in Hf; lia | exact Hrep].
Qed.

Lemma operator_rule_all a (rep s : str) :
  ~ In a rep -> ~ In a (replace_all (cat [ws_star; Lit [a]; ws_star]) rep s).
Proof. intros H. apply operator_rule_removes; [lia | exact H]. Qed.

Ltac not_in_literal := vm_compute; intuition discriminate.

Section TranslateFacts.

Unset Implicit Arguments.

(** X10.  The translated clause contains none of the characters [=], [<]
    and [>]: each is replaced wherever it stands, inside quoted text as
    well. *)
Theorem translate_leaves_no_operator (whereClause : str) (c : ascii) :
  In c (SqlParser.translateWhereClause whereClause) ->
  one_of (js "=<>") c = false.
Proof.
  intros H.
  destruct (one_of (js "=<>") c) eqn:E; [exfalso | reflexivity].
  unfold one_of in E. simpl in E.
  revert H. unfold SqlParser.translateWhereClause, SqlParser.whereRules.
  cbn [fold_left fst snd].
  repeat (apply orb_true_iff in E; destruct E as [E|E]);
    try discriminate; apply Ascii.eqb_eq in E; subst c.
  - do 8 (apply replace_all_keeps_out; [not_in_literal|]).
    apply (@operator_rule_all "="%char). not_in_literal.
  - do 5 (apply replace_all_keeps_out; [not_in_literal|]).
    apply (@operator_rule_all "<"%char). not_in_literal.
  - do 6 (apply replace_all_keeps_out; [not_in_literal|]).
    apply (@operator_rule_all ">"%char). not_in_literal.
Qed.

Lemma translate_leaves_no_operator_witness :
  one_of (js "=<>") "e"%char = false.
Proof.
  apply (translate_leaves_no_operator (js "a >= 'x<y'") "e"%char).
  vm_compute. tauto.
Defined.











End TranslateFacts.

(** ** The parameters and the URL of a request *)

Lemma exec_idPattern_none (f : str) :
  ~ (exists pre value text post, IdClause value text /\ f = pre ++ text ++ post) ->
  exec QueryToolController.idPattern f = None.
Proof.
  intros Hno. destruct (exec QueryToolController.idPattern f) as [[rest m]|] eqn:E;
    [|reflexivity].
  exfalso. apply Hno. apply idPattern_value in E.
  destruct E as (pre & value & text & Hc & Ef & _). exists pre, value, text, rest. auto.
Qed.

Lemma no_clause_of_exec (f : str) :
  exec QueryToolController.idPattern f = None ->
  ~ (exists pre value text post, IdClause value text /\ f = pre ++ text ++ post).
Proof.
  intros E (pre & value & text & post & Hc & ->).
  destruct (idPattern_intro post Hc) as [m Hm].
  apply (exec_complete pre) in Hm. congruence.
Qed.

(** X13.  When the filter of an UPDATE or DELETE query is not empty and
    contains no clause [<word>id eq '<value>'], the URL is the collection
    URL followed by [?$filter=] and the filter itself, character for
    character: this branch does not encode it. *)
Theorem filter_fallback_url (orgUrl : str) (q : ParsedQuery) (f : str) :
  operation q = UPDATE \/ operation q = DELETE ->
  filter q = Some f -> f <> [] ->
  ~ (exists pre value text post, IdClause value text /\ f = pre ++ text ++ post) ->
  QueryToolController.buildQueryUrl orgUrl q
  = QueryToolController.collectionUrl orgUrl q ++ js "?$filter=" ++ f.
Proof.
  intros Hop Hf Hne Hno.
  unfold QueryToolController.buildQueryUrl. rewrite Hf.
  destruct f as [|x f]; [congruence|].
  unfold QueryToolController.targetUrl at 1 2.
  rewrite (@exec_idPattern_none _ Hno).
  destruct Hop as [-> | ->]; reflexivity.
Qed.

Lemma filter_fallback_url_witness :
  let q := {| operation := DELETE; entity := js "account"; fields := None;
              filter := Some (js "name eq 'a b'");
              orderBy := None; limit := None; values := None |} in
  QueryToolController.buildQueryUrl (js "https://org.crm.dynamics.com") q
  = QueryToolController.collectionUrl (js "https://org.crm.dynamics.com") q
    ++ js "?$filter=" ++ js "name eq 'a b'".
Proof.
  intros q.
  apply (@filter_fallback_url (js "https://org.crm.dynamics.com") q (js "name eq 'a b'")).
  - right; reflexivity.
  - reflexivity.
  - discriminate.
  - apply no_clause_of_exec. vm_compute. reflexivity.
Defined.

Lemma flat_map_in_class (A : Type) (enc : A -> str) (P : ascii -> bool) :
  (forall a, forallb P (enc a) = true) ->
  forall l c, In c (flat_map enc l) -> P c = true.
Proof.
  intros He l c H. apply in_flat_map in H. destruct H as (a & _ & Hc).
  specialize (He a). rewrite forallb_forall in He. auto.
Qed.

Lemma form_char_class (c : ascii) :
  forallb (fun x => is_upper x || is_lower x || is_digit x
                    || one_of (js "*-._+%") x)
          (flat_map form_byte (utf8 c)) = true.
Proof.
  assert (H : forallb (fun c =>
                forallb (fun x => is_upper x || is_lower x || is_digit x
                                  || one_of (js "*-._+%") x)
                        (flat_map form_byte (utf8 c))) all_chars = true)
    by (vm_compute; reflexivity).
  rewrite forallb_forall in H. apply H, all_chars_complete.
Qed.

(** X14.  The encoded form of a parameter is made of ASCII letters, digits
    and the characters [*-._+%] only: no space, [&], [=], [?] or [#] of a
    value reaches the query string as it is. *)
Theorem formEncode_alphabet (s : str) (c : ascii) :
  In c (formEncode s) ->
  (is_upper c || is_lower c || is_digit c || one_of (js "*-._+%") c) = true.
Proof.
  unfold formEncode.
  exact (@flat_map_in_class _ (fun a => flat_map form_byte (utf8 a))
           (fun x => is_upper x || is_lower x || is_digit x
                     || one_of (js "*-._+%") x)
           form_char_class s c).
Qed.

Lemma formEncode_alphabet_witness :
  (is_upper "+" || is_lower "+" || is_digit "+" || one_of (js "*-._+%") "+") = true.
Proof.
  apply (@formEncode_alphabet (js "a b&c") "+"%char). vm_compute. tauto.
Defined.

Lemma app_prefix_cases (u v A B : str) :
  u ++ A = v ++ B -> startsWith v u = true \/ startsWith u v = true.
Proof.
  revert v. induction u as [|x u IH]; intros [|y v] H; simpl in *; auto.
  injection H as -> H. rewrite Ascii.eqb_refl. simpl. auto.
Qed.

Lemma form_char_prefix_free (c c' : ascii) :
  startsWith (flat_map form_byte (utf8 c')) (flat_map form_byte (utf8 c)) = true ->
  c = c'.
Proof.
  assert (H : forallb (fun c => forallb (fun c' =>
                implb (startsWith (flat_map form_byte (utf8 c'))
                                  (flat_map form_byte (utf8 c)))
                      (Ascii.eqb c c')) all_chars) all_chars = true)
    by (vm_compute; reflexivity).
  rewrite forallb_forall in H. specialize (H c (all_chars_complete c)).
  rewrite forallb_forall in H. specialize (H c' (all_chars_complete c')).
  intros Hp. rewrite Hp in H. simpl in H. apply Ascii.eqb_eq. exact H.
Qed.

Lemma form_char_nonempty (c : ascii) : flat_map form_byte (utf8 c) <> [].
Proof.
  assert (H : forallb (fun c => match flat_map form_byte (utf8 c) with
                                | [] => false
                                | _ :: _ => true
                                end) all_chars = true)
    by (vm_compute; reflexivity).
  rewrite forallb_forall in H. specialize (H c (all_chars_complete c)).
  intros E. rewrite E in H. discriminate.
Qed.

(** X15.  The encoding loses nothing: two different texts never have the
    same encoded form. *)
Theorem formEncode_injective (a b : str) :
  formEncode a = formEncode b -> a = b.
Proof.
  unfold formEncode. revert b.
  induction a as [|x a IH]; intros [|y b] H; simpl in H.
  - reflexivity.
  - symmetry in H. apply app_eq_nil in H. destruct H as [H _].
    apply form_char_nonempty in H. contradiction.
  - apply app_eq_nil in H. destruct H as [H _].
    apply form_char_nonempty in H. contradiction.
  - assert (Exy : x = y).
    { destruct (app_prefix_cases _ _ _ _ H) as [Hp|Hp];
        apply form_char_prefix_free in Hp; congruence. }
    subst y. apply app_inv_head in H. f_equal. apply IH. exact H.
Qed.

Lemma formEncode_injective_witness : js "a b" = js "a b".
Proof. apply formEncode_injective. reflexivity. Defined.

Lemma filter_idem (A : Type) (f : A -> bool) (l : list A) :
  List.filter f (List.filter f l) = List.filter f l.
Proof.
  induction l as [|x l IH]; simpl; [reflexivity|].
  destruct (f x) eqn:E; simpl; [rewrite E, IH | rewrite IH]; reflexivity.
Qed.

Lemma filter_all (A : Type) (f : A -> bool) (l : list A) :
  forallb f l = true -> List.filter f l = l.
Proof.
  induction l as [|x l IH]; simpl; [reflexivity|]. intros H.
  apply andb_true_iff in H. destruct H as [Hx Hl]. rewrite Hx, IH; auto.
Qed.

(** X16.  The record id that goes into a URL carries no curly brace,
    wherever the braces stood in the value; an id without braces is left
    as it is, and formatting twice changes nothing more. *)
Theorem formatId_no_braces (idValue : str) :
  (forall c, In c (QueryToolController.formatId idValue) ->
             one_of (js "{}") c = false) /\
  QueryToolController.formatId (QueryToolController.formatId idValue)
  = QueryToolController.formatId idValue /\
  (forallb (fun c => negb (one_of (js "{}") c)) idValue = true ->
   QueryToolController.formatId idValue = idValue).
Proof.
  rewrite !formatId_strip. unfold strip_braces. repeat split.
  - intros c H. apply filter_In in H. destruct H as [_ H].
    apply negb_true_iff in H. exact H.
  - apply filter_idem.
  - apply filter_all.
Qed.

Lemma formatId_no_braces_witness :
  QueryToolController.formatId (js "6f1d-22") = js "6f1d-22".
Proof.
  apply (proj2 (proj2 (formatId_no_braces (js "6f1d-22")))). reflexivity.
Defined.

(** ** Parsed statements in [DynamicsApi] *)

Lemma parse_cases (sql : str) (q : ParsedQuery) :
  SqlParser.parse sql = Ok q ->
  SqlParser.parseSelect (SqlParser.terminated sql) = Ok q \/
  SqlParser.parseInsert (SqlParser.terminated sql) = Ok q \/
  SqlParser.parseUpdate (SqlParser.terminated sql) = Ok q \/
  SqlParser.parseDelete (SqlParser.terminated sql) = Ok q.
Proof.
  unfold SqlParser.parse.
  repeat match goal with |- context [if ?b then _ else _] => destruct b end;
    auto; discriminate.
Qed.

Lemma records_request (u : str) (q : ParsedQuery) (f : str) :
  filter q = Some f -> f <> [] ->
  DynamicsApi.executeRetrieve u (DynamicsApi.recordsQuery q)
  = {| method := js "GET";
       url := DynamicsApi.entityUrl u (entity q) ++ js "?%24filter=" ++ formEncode f;
       body := None |}.
Proof.
  intros Hf Hne. unfold DynamicsApi.executeRetrieve, DynamicsApi.recordsQuery.
  f_equal. unfold selectParams. simpl. rewrite Hf.
  destruct f as [|x f]; [congruence|].
  unfold append. simpl app. rewrite withQuery_cons, app_nil_r. reflexivity.
Qed.

(** X17.  What [DynamicsApi.executeQuery] does with a query that [parse]
    returned.  A SELECT and an INSERT are always sent (the INSERT as a POST
    of its values to the collection URL).  An UPDATE or DELETE with a WHERE
    clause first sends a GET of the collection with the one parameter
    [$filter], form-encoded, and without [$select]; without a WHERE clause
    it fails with the message that a filter is required.  The error for
    missing values cannot arise. *)
Theorem dynamicsApi_on_parsed (u sql : str) (q : ParsedQuery) :
  SqlParser.parse sql = Ok q ->
  match operation q, filter q with
  | SELECT, _ =>
      DynamicsApi_executeQuery (Some u) q = Ok (DynamicsApi.executeRetrieve u q)
  | INSERT, _ =>
      exists o, values q = Some o /\
      DynamicsApi_executeQuery (Some u) q
      = Ok {| method := js "POST";
              url := DynamicsApi.entityUrl u (entity q);
              body := Some o |}
  | UPDATE, Some f | DELETE, Some f =>
      DynamicsApi_executeQuery (Some u) q
      = Ok {| method := js "GET";
              url := DynamicsApi.entityUrl u (entity q)
                     ++ js "?%24filter=" ++ formEncode f;
              body := None |}
  | UPDATE, None =>
      DynamicsApi_executeQuery (Some u) q
      = Err (Error (js "Dynamics API error: Filter (WHERE clause) is required for UPDATE operations"))
  | DELETE, None =>
      DynamicsApi_executeQuery (Some u) q
      = Err (Error (js "Dynamics API error: Filter (WHERE clause) is required for DELETE operations"))
  end.
Proof.
  intros H. apply parse_cases in H. destruct H as [H|[H|[H|H]]].
  - apply parseSelect_shape in H. destruct H as (Hop & _).
    unfold DynamicsApi_executeQuery. rewrite Hop. reflexivity.
  - apply parseInsert_shape in H. destruct H as (Hop & _ & [o Hv] & _).
    unfold DynamicsApi_executeQuery, DynamicsApi.executeCreate.
    rewrite Hop, Hv. exists o. split; reflexivity.
  - apply parseUpdate_shape in H. destruct H as (Hop & Hf & [o Hv] & _).
    unfold DynamicsApi_executeQuery, DynamicsApi.executeUpdate.
    rewrite Hop, Hv. destruct (filter q) as [[|x f]|] eqn:Ef;
      [exfalso; apply Hf; reflexivity | | reflexivity].
    change (negb (truthy (Some (x :: f)))) with false.
    cbn [DynamicsApi_rethrow].
    rewrite (@records_request u q (x :: f) Ef); [reflexivity | discriminate].
  - apply parseDelete_shape in H. destruct H as (Hop & Hf & _).
    unfold DynamicsApi_executeQuery, DynamicsApi.executeDelete.
    rewrite Hop. destruct (filter q) as [[|x f]|] eqn:Ef;
      [exfalso; apply Hf; reflexivity | | reflexivity].
    change (negb (truthy (Some (x :: f)))) with false.
    cbn [DynamicsApi_rethrow].
    rewrite (@records_request u q (x :: f) Ef); [reflexivity | discriminate].
Qed.

Lemma dynamicsApi_on_parsed_witness :
  exists q,
    SqlParser.parse (js "DELETE FROM account WHERE name = 'a b'") = Ok q /\
    DynamicsApi_executeQuery (Some (js "https://org.crm.dynamics.com")) q
    = Ok {| method := js "GET";
            url := DynamicsApi.entityUrl (js "https://org.crm.dynamics.com") (js "account")
                   ++ js "?%24filter=" ++ formEncode (js "name eq 'a b'");
            body := None |}.
Proof.
  eexists.
  assert (H : SqlParser.parse (js "DELETE FROM account WHERE name = 'a b'") = Ok _)
    by (vm_compute; reflexivity).
  split; [exact H|].
  exact (@dynamicsApi_on_parsed (js "https://org.crm.dynamics.com") _ _ H).
Defined.

(** ** The result table and its CSV export *)

Lemma replace_chr_flat_map (p : ascii -> bool) (rep s : str) : forall fuel,
  length s <= fuel ->
  replace_from fuel (Chr p) rep s = flat_map (fun c => if p c then rep else [c]) s.
Proof.
  induction s as [|x s IH]; intros [|fuel] Hf; simpl in Hf; try lia;
    try reflexivity.
  rewrite replace_from_S. cbn [match_at rmatch flat_map].
  destruct (p x) eqn:E.
  - replace (length s <? length (x :: s)) with true
      by (symmetry; apply Nat.ltb_lt; simpl; lia).
    rewrite IH by lia. reflexivity.
  - rewrite IH by lia. reflexivity.
Qed.

Lemma includes_char (s : str) (a : ascii) :
  includes s [a] = true <-> In a s.
Proof.
  induction s as [|x s IH]; simpl; [split; [discriminate | tauto]|].
  rewrite orb_true_iff, IH, startsWith_nil, andb_true_r, Ascii.eqb_eq. tauto.
Qed.

Lemma csv_doubled (text : str) :
  replace_all (Chr (is_char ResultsHandler.dquote))
              [ResultsHandler.dquote; ResultsHandler.dquote] text
  = flat_map (fun c => if is_char ResultsHandler.dquote c
                       then [ResultsHandler.dquote; ResultsHandler.dquote]
                       else [c]) text.
Proof. unfold replace_all. apply replace_chr_flat_map. lia. Qed.

Lemma doubled_inj (a : str) : forall b,
  flat_map (fun c => if is_char ResultsHandler.dquote c
                     then [ResultsHandler.dquote; ResultsHandler.dquote]
                     else [c]) a
  = flat_map (fun c => if is_char ResultsHandler.dquote c
                       then [ResultsHandler.dquote; ResultsHandler.dquote]
                       else [c]) b ->
  a = b.
Proof.
  induction a as [|x a IH]; intros [|y b]; simpl.
  - reflexivity.
  - destruct (is_char _ y); discriminate.
  - destruct (is_char _ x); discriminate.
  - destruct (is_char _ x) eqn:Ex, (is_char _ y) eqn:Ey; simpl; intros H.
    + apply Ascii.eqb_eq in Ex, Ey. subst. injection H as H. f_equal. auto.
    + injection H as Hh _. apply Ascii.eqb_eq in Ex. subst.
      unfold is_char in Ey. rewrite Ascii.eqb_refl in Ey. discriminate.
    + injection H as Hh _. apply Ascii.eqb_eq in Ey. subst.
      unfold is_char in Ex. rewrite Ascii.eqb_refl in Ex. discriminate.
    + injection H as -> H. f_equal. auto.
Qed.

Lemma csvCell_unquoted (text : str) :
  ResultsHandler.csvCell (Some text)
  = replace_all (Chr (is_char ResultsHandler.dquote))
                [ResultsHandler.dquote; ResultsHandler.dquote] text ->
  ~ In ResultsHandler.dquote (ResultsHandler.csvCell (Some text)).
Proof.
  unfold ResultsHandler.csvCell.
  set (d := replace_all _ _ text).
  destruct (includes d (js ",") || includes d [ResultsHandler.newline]
            || includes d [ResultsHandler.dquote]) eqn:E.
  - intros H. exfalso. apply (f_equal (@length ascii)) in H.
    simpl in H. rewrite length_app in H. simpl in H. lia.
  - intros _ Hin. apply includes_char in Hin.
    rewrite Hin in E. rewrite orb_true_r in E. discriminate.
Qed.

(** X18.  In the CSV export two cells with different text never give the
    same field, quoted or not; a cell that is [null] or [undefined] gives
    the empty field, the same as the empty string. *)
Theorem csvCell_injective (a b : str) :
  (ResultsHandler.csvCell (Some a) = ResultsHandler.csvCell (Some b) -> a = b) /\
  ResultsHandler.csvCell None = ResultsHandler.csvCell (Some []).
Proof.
  split; [|reflexivity]. intros H.
  pose proof (@csvCell_unquoted a) as Ha. pose proof (@csvCell_unquoted b) as Hb.
  revert H Ha Hb. unfold ResultsHandler.csvCell. rewrite !csv_doubled.
  set (da := flat_map _ a). set (db := flat_map _ b).
  destruct (includes da (js ",") || includes da [ResultsHandler.newline]
            || includes da [ResultsHandler.dquote]);
    destruct (includes db (js ",") || includes db [ResultsHandler.newline]
              || includes db [ResultsHandler.dquote]); intros H Ha Hb.
  - injection H as H. apply app_inv_tail in H. apply doubled_inj. exact H.
  - exfalso. apply (Hb eq_refl). rewrite <- H. left; reflexivity.
  - exfalso. apply (Ha eq_refl). rewrite H. left; reflexivity.
  - apply doubled_inj. exact H.
Qed.

Lemma csvCell_injective_witness : js "a,b" = js "a,b".
Proof.
  apply (proj1 (csvCell_injective (js "a,b") (js "a,b"))). reflexivity.
Defined.

(** X19.  [formatResults] always gives a rectangular table: [totalCount]
    is the number of rows, one row per record, and every row has one cell
    per column.  The columns are the keys of the first record alone; when
    the first record has no keys the CSV export is empty, whatever the
    other records hold. *)
Theorem formatResults_table (T : Type) (inherited : str -> ResultsHandler.cell)
    (data : option (list ResultsHandler.record)) (time : T) :
  let result := ResultsHandler.formatResults inherited data time in
  ResultsHandler.totalCount result = length (ResultsHandler.rows result) /\
  Forall (fun row => length row = length (ResultsHandler.columns result))
         (ResultsHandler.rows result) /\
  (forall first rest, data = Some (first :: rest) ->
     ResultsHandler.columns result = map fst first /\
     ResultsHandler.totalCount result = S (length rest)) /\
  (forall rest, data = Some ([] :: rest) -> ResultsHandler.exportToCsv result = []).
Proof.
  intros result. subst result.
  destruct data as [[|first rest]|].
  - split; [reflexivity|]. split; [constructor|]. split; intros; discriminate.
  - split; [simpl; rewrite length_map; reflexivity|]. split; [|split].
    + apply Forall_forall. intros row H. apply in_map_iff in H.
      destruct H as (item & <- & _). simpl. rewrite !length_map. reflexivity.
    + intros f r [= <- <-]. split; reflexivity.
    + intros r [= -> _]. reflexivity.
  - split; [reflexivity|]. split; [constructor|]. split; intros; discriminate.
Qed.

Lemma formatResults_table_witness :
  ResultsHandler.exportToCsv
    (ResultsHandler.formatResults (fun _ => None)
       (Some [[]; [(js "name", Some (js "x"))]]) tt) = [].
Proof.
  exact (proj2 (proj2 (proj2
           (@formatResults_table unit (fun _ => None)
              (Some [[]; [(js "name", Some (js "x"))]]) tt))) _ eq_refl).
Defined.

(** ** The pages of the result table *)

Lemma firstn_min_length (A : Type) (n : nat) (l : list A) :
  firstn (Nat.min n (length l)) l = firstn n l.
Proof.
  destruct (Nat.le_ge_cases n (length l)) as [H|H].
  - rewrite Nat.min_l by exact H. reflexivity.
  - rewrite Nat.min_r by exact H. rewrite firstn_all, firstn_all2; auto.
Qed.

Lemma displayResultPage_chunk (A : Type) (k : nat) (rows : list A) :
  ResultPages.displayResultPage (Z.of_nat (S k)) rows
  = Ok (firstn 50 (skipn (50 * k) rows)).
Proof.
  unfold ResultPages.displayResultPage, ResultPages.pageSize.
  replace ((Z.of_nat (S k) - 1) * 50)%Z with (Z.of_nat (50 * k)) by lia.
  destruct (Z.of_nat (50 * k) <?
            Z.min (Z.of_nat (50 * k) + 50) (Z.of_nat (length rows)))%Z eqn:E.
  - apply Z.ltb_lt in E.
    replace (Z.of_nat (50 * k) <? 0)%Z with false by (symmetry; apply Z.ltb_ge; lia).
    rewrite Nat2Z.id.
    replace (Z.to_nat (Z.min (Z.of_nat (50 * k) + 50) (Z.of_nat (length rows))
                       - Z.of_nat (50 * k)))
      with (Nat.min 50 (length (skipn (50 * k) rows)))
      by (rewrite length_skipn; lia).
    rewrite firstn_min_length. reflexivity.
  - apply Z.ltb_ge in E. rewrite skipn_all2 by lia. reflexivity.
Qed.

Lemma chunks_concat (A : Type) (n : nat) : forall rows : list A,
  length rows <= 50 * n ->
  concat (map (fun k => firstn 50 (skipn (50 * k) rows)) (seq 0 n)) = rows.
Proof.
  induction n as [|n IH]; intros rows H.
  - destruct rows; [reflexivity | simpl in H; lia].
  - cbn [seq map concat]. rewrite <- seq_shift, map_map.
    transitivity (firstn 50 rows ++ skipn 50 rows); [|apply firstn_skipn].
    f_equal.
    etransitivity; [|apply (IH (skipn 50 rows)); rewrite length_skipn; lia].
    f_equal. apply map_ext. intros k.
    rewrite skipn_skipn. f_equal. f_equal. lia.
Qed.

Lemma totalPages_covers (n : nat) :
  (0 <= ResultPages.totalPages n)%Z /\
  n <= 50 * Z.to_nat (ResultPages.totalPages n) /\
  (forall k, (Z.of_nat (S k) <= ResultPages.totalPages n)%Z <-> 50 * k < n).
Proof.
  unfold ResultPages.totalPages, ResultPages.pageSize.
  pose proof (Z.div_mod (Z.of_nat n + 50 - 1) 50 ltac:(lia)) as Hd.
  pose proof (Z.mod_pos_bound (Z.of_nat n + 50 - 1) 50 ltac:(lia)) as Hm.
  repeat split; intros; lia.
Qed.

(** X20.  The buttons keep the page number in range: from a page between 1
    and the number of pages (page 1 when there are no rows), going back or
    forth gives such a page again; going back from page 1 and going forth
    from the last page change nothing. *)
Theorem page_stays_in_range (totalCount : nat) (currentPage : Z) :
  (1 <= currentPage <= Z.max 1 (ResultPages.totalPages totalCount))%Z ->
  (1 <= ResultPages.goToPreviousPage currentPage
     <= Z.max 1 (ResultPages.totalPages totalCount))%Z /\
  (1 <= ResultPages.goToNextPage totalCount currentPage
     <= Z.max 1 (ResultPages.totalPages totalCount))%Z /\
  ResultPages.goToPreviousPage 1 = 1%Z /\
  ResultPages.goToNextPage totalCount (ResultPages.totalPages totalCount)
  = ResultPages.totalPages totalCount.
Proof.
  intros H. unfold ResultPages.goToPreviousPage, ResultPages.goToNextPage.
  rewrite (Z.ltb_irrefl (ResultPages.totalPages totalCount)).
  destruct (Z.ltb_spec 1 currentPage),
           (Z.ltb_spec currentPage (ResultPages.totalPages totalCount));
    repeat split; try reflexivity; lia.
Qed.

Lemma page_stays_in_range_witness :
  (1 <= ResultPages.goToNextPage 120 2 <= Z.max 1 (ResultPages.totalPages 120))%Z.
Proof.
  apply (proj1 (proj2 (@page_stays_in_range 120 2 ltac:(vm_compute; split; discriminate)))).
Defined.

(** X21.  The pages cut the rows into consecutive pieces: every page from
    1 on is drawn without error and shows at most 50 rows, it shows none
    exactly when its number is beyond the last page, and the pages 1 to
    the last, one after the other, are all the rows in their order. *)
Theorem pages_partition_rows (A : Type) (rows : list A) :
  (forall k, exists page,
     ResultPages.displayResultPage (Z.of_nat (S k)) rows = Ok page /\
     length page <= 50 /\
     (page = [] <-> (ResultPages.totalPages (length rows) < Z.of_nat (S k))%Z)) /\
  concat (map (fun k => pageOf (Z.of_nat (S k)) rows)
              (seq 0 (Z.to_nat (ResultPages.totalPages (length rows)))))
  = rows.
Proof.
  destruct (totalPages_covers (length rows)) as (H0 & Hcov & Hk). split.
  - intros k. exists (firstn 50 (skipn (50 * k) rows)).
    split; [apply displayResultPage_chunk|]. split; [apply firstn_le_length|].
    specialize (Hk k). split.
    + intros E. apply (f_equal (@length A)) in E.
      rewrite length_firstn, length_skipn in E. cbn [length] in E. lia.
    + intros Hlt. rewrite skipn_all2 by lia. reflexivity.
  - etransitivity; [|exact (@chunks_concat A _ rows Hcov)]. f_equal.
    apply map_ext. intros k. unfold pageOf.
    rewrite displayResultPage_chunk. reflexivity.
Qed.

(** ** Which pages count as Dynamics pages *)

Lemma rmatch_Lit (R : Type) (p : str) : forall s c (k : cont R),
  rmatch (Lit p) s c k
  = if startsWith s p then k (skipn (length p) s) c else None.
Proof.
  induction p as [|a p IH]; intros s c k.
  - rewrite startsWith_nil. reflexivity.
  - cbn [Lit rmatch]. destruct s as [|x s]; [reflexivity|].
    cbn [startsWith length skipn]. unfold is_char at 1.
    destruct (Ascii.eqb x a); [apply IH | reflexivity].
Qed.

Lemma matches_Lit (p s : str) : Background.matches (Lit p) s = includes s p.
Proof.
  unfold Background.matches.
  induction s as [|x s IH]; cbn [exec includes]; unfold match_at;
    rewrite rmatch_Lit; destruct (startsWith _ p); try reflexivity.
  exact IH.
Qed.

Lemma startsWith_split (p : str) : forall s,
  startsWith s p = true -> exists post, s = p ++ post.
Proof.
  induction p as [|a p IH]; intros s H; [exists s; reflexivity|].
  destruct s as [|x s]; [discriminate|]. cbn [startsWith] in H.
  apply andb_true_iff in H. destruct H as [Hx Hs].
  apply Ascii.eqb_eq in Hx. subst x.
  destruct (IH s Hs) as [post ->]. exists post. reflexivity.
Qed.

Lemma includes_head (s p : str) : startsWith s p = true -> includes s p = true.
Proof. intros H. destruct s; cbn [includes]; rewrite H; reflexivity. Qed.

Lemma includes_spec (s p : str) :
  includes s p = true <-> exists pre post, s = pre ++ p ++ post.
Proof.
  split.
  - induction s as [|x s IH]; cbn [includes]; intros H;
      apply orb_true_iff in H; destruct H as [H|H].
    + apply startsWith_split in H. destruct H as [post H].
      exists [], post. exact H.
    + discriminate.
    + apply startsWith_split in H. destruct H as [post H].
      exists [], post. exact H.
    + destruct (IH H) as (pre & post & ->). exists (x :: pre), post. reflexivity.
  - intros (pre & post & ->). induction pre as [|x pre IH].
    + apply includes_head. exact (startsWith_app p post).
    + cbn [app includes]. rewrite IH. apply orb_true_r.
Qed.

Lemma includes_longer (s a b : str) :
  includes s (a ++ b) = true -> includes s b = true.
Proof.
  intros H. apply includes_spec in H. destruct H as (pre & post & ->).
  apply includes_spec. exists (pre ++ a), post.
  repeat rewrite <- app_assoc. reflexivity.
Qed.

(** X22.  In each of the two tests for a Dynamics page the second
    alternative never decides.  [isDynamicsCrmPage] accepts exactly the
    host names that contain [dynamics.com], and the test of the background
    listener accepts exactly the tab URLs that contain [dynamics.com]
    anywhere, behind the host as well. *)
Theorem dynamics_page_tests (hostname tabUrl : str) :
  ContentScript.isDynamicsCrmPage hostname = includes hostname (js "dynamics.com") /\
  Background.isDynamicsUrl tabUrl = includes tabUrl (js "dynamics.com") /\
  (forall pre post, Background.isDynamicsUrl (pre ++ js "dynamics.com" ++ post) = true).
Proof.
  assert (H : forall s, (includes s (js "dynamics.com")
                         || includes s (js "crm.dynamics.com"))
                        = includes s (js "dynamics.com")).
  { intros s. destruct (includes s (js "dynamics.com")) eqn:E; [reflexivity|].
    destruct (includes s (js "crm.dynamics.com")) eqn:E2; [|reflexivity].
    change (js "crm.dynamics.com") with (js "crm." ++ js "dynamics.com") in E2.
    apply includes_longer in E2. congruence. }
  unfold ContentScript.isDynamicsCrmPage, Background.isDynamicsUrl.
  split; [apply H|]. split; [rewrite !matches_Lit; apply H|].
  intros pre post. rewrite !matches_Lit, H.
  apply includes_spec. exists pre, post. reflexivity.
Qed.

(** ** Plural entity names *)

Lemma entry_In (k : str) (table : list (str * str)) : forall v,
  RecordInspector.entry k table = Some v -> In (k, v) table.
Proof.
  induction table as [|[k' v'] table IH]; intros v H; [discriminate|].
  cbn [RecordInspector.entry] in H.
  destruct (str_eqb k' k) eqn:E.
  - apply str_eqb_eq in E. injection H as <-. subst k'. left; reflexivity.
  - right. apply IH. exact H.
Qed.

Lemma commonEntities_plural (k p : str) :
  In (k, p) RecordInspector.commonEntities -> endsWith p (js "s") = true.
Proof.
  assert (H : forallb (fun kv => endsWith (snd kv) (js "s"))
                      RecordInspector.commonEntities = true)
    by (vm_compute; reflexivity).
  rewrite forallb_forall in H. intros Hin. exact (H (k, p) Hin).
Qed.

Lemma commonEntities_keys :
  NoDup (map fst RecordInspector.commonEntities) /\
  ~ In (js "constructor") (map fst RecordInspector.commonEntities) /\
  ~ In (js "__proto__") (map fst RecordInspector.commonEntities).
Proof.
  assert (H : forall l : list str,
            (fix nodup (l : list str) : bool :=
               match l with
               | [] => true
               | k :: r => negb (existsb (str_eqb k) r) && nodup r
               end) l = true -> NoDup l).
  { induction l as [|k r IH]; intros H; constructor.
    - apply andb_true_iff in H. destruct H as [H _]. apply negb_true_iff in H.
      intros Hin. assert (E : existsb (str_eqb k) r = true)
        by (apply existsb_exists; exists k; split; [exact Hin | apply str_eqb_refl]).
      congruence.
    - apply IH. apply andb_true_iff in H. tauto. }
  assert (Hn : forall k (l : list str), existsb (str_eqb k) l = false -> ~ In k l).
  { intros k l E Hin.
    assert (E' : existsb (str_eqb k) l = true)
      by (apply existsb_exists; exists k; split; [exact Hin | apply str_eqb_refl]).
    congruence. }
  split; [apply H; vm_compute; reflexivity|].
  split; apply Hn; vm_compute; reflexivity.
Qed.

Lemma entry_of_In (k v : str) (table : list (str * str)) :
  NoDup (map fst table) -> In (k, v) table ->
  RecordInspector.entry k table = Some v.
Proof.
  induction table as [|[k' v'] table IH]; intros Hnd Hin; [contradiction|].
  cbn [map fst] in Hnd. inversion Hnd as [|? ? Hk Hnd']; subst.
  cbn [RecordInspector.entry]. destruct Hin as [[= -> ->]|Hin].
  - rewrite str_eqb_refl. reflexivity.
  - destruct (str_eqb k' k) eqn:E; [|apply IH; assumption].
    apply str_eqb_eq in E. subst k'. exfalso. apply Hk.
    apply in_map_iff. exists (k, v). auto.
Qed.

Lemma entry_none (k : str) (table : list (str * str)) :
  ~ In k (map fst table) -> RecordInspector.entry k table = None.
Proof.
  induction table as [|[k' v'] table IH]; intros Hk; [reflexivity|].
  cbn [RecordInspector.entry]. destruct (str_eqb k' k) eqn:E.
  - apply str_eqb_eq in E. subst k'. exfalso. apply Hk. left; reflexivity.
  - apply IH. intros Hin. apply Hk. right; exact Hin.
Qed.

(** X23.  What [getPluralEntityName] returns.  An entity name that the
    table lists, in any letter case, gets the plural of the table.  A name
    that spells [constructor] or [__proto__] in any letter case gets no
    name at all: the lookup finds a member of [Object.prototype], which is
    truthy, and that member is returned.  Every other name gets [s]
    appended.  Every name that is returned ends in [s]. *)
Theorem plural_entity_name (entityName : str) :
  (forall p, In (toLowerCase entityName, p) RecordInspector.commonEntities ->
     RecordInspector.getPluralEntityName entityName = RecordInspector.PluralName p) /\
  (toLowerCase entityName = js "constructor" \/
   toLowerCase entityName = js "__proto__" ->
     RecordInspector.getPluralEntityName entityName
     = RecordInspector.PrototypeMember (toLowerCase entityName)) /\
  (~ In (toLowerCase entityName) (map fst RecordInspector.commonEntities) ->
   toLowerCase entityName <> js "constructor" ->
   toLowerCase entityName <> js "__proto__" ->
     RecordInspector.getPluralEntityName entityName
     = RecordInspector.PluralName (entityName ++ js "s")) /\
  (forall p, RecordInspector.getPluralEntityName entityName
             = RecordInspector.PluralName p ->
     endsWith p (js "s") = true).
Proof.
  destruct commonEntities_keys as (Hnd & Hc & Hp).
  unfold RecordInspector.getPluralEntityName. cbv zeta. repeat split.
  - intros p Hin. rewrite (entry_of_In _ _ _ Hnd Hin). reflexivity.
  - intros [E|E]; rewrite E; rewrite entry_none by assumption; reflexivity.
  - intros Hk Hc' Hp'. rewrite (entry_none _ _ Hk).
    unfold RecordInspector.prototypeMembers. cbn [existsb].
    apply str_eqb_neq in Hc', Hp'. rewrite Hc', Hp'. reflexivity.
  - intros p.
    destruct (RecordInspector.entry (toLowerCase entityName)
                RecordInspector.commonEntities) as [p'|] eqn:E.
    + intros [= <-]. apply entry_In in E. exact (commonEntities_plural _ _ E).
    + destruct (existsb _ _); [discriminate|].
      intros [= <-]. apply endsWith_app.
Qed.

Lemma plural_entity_name_witness :
  RecordInspector.getPluralEntityName (js "Opportunity")
  = RecordInspector.PluralName (js "opportunities") /\
  RecordInspector.getPluralEntityName (js "Constructor")
  = RecordInspector.PrototypeMember (js "constructor") /\
  RecordInspector.getPluralEntityName (js "Invoice")
  = RecordInspector.PluralName (js "Invoices").
Proof.
  split; [|split].
  - apply (proj1 (plural_entity_name (js "Opportunity"))).
    vm_compute. tauto.
  - apply (proj1 (proj2 (plural_entity_name (js "Constructor")))).
    left; reflexivity.
  - apply (proj1 (proj2 (proj2 (plural_entity_name (js "Invoice"))))).
    + vm_compute. intuition discriminate.
    + discriminate.
    + discriminate.
Defined.

(** ** From the popup to the query tool *)

(** X25.  A statement that the popup accepts and stores is parsed again
    by the query tool, which reaches the query that the popup had parsed:
    the second parse cannot fail, and the tool sends the request of that
    query unless no organization URL is stored, which is then the error
    it shows.  A statement that the popup rejects gets the same error
    when it is typed into the tool, with or without a stored URL. *)
Theorem popup_handoff (orgUrl text : str) :
  match Popup.executeQuickQuery text with
  | Ok (query, parsedQuery) =>
      QueryToolController_checkPendingQuery orgUrl (Some (query, true))
      = Some (match orgUrl with
              | [] => Err QueryToolController.OrgUrlNotFound
              | _ :: _ => Ok (QueryToolController.toRequest orgUrl parsedQuery)
              end)
  | Err e => QueryToolController.executeQuery orgUrl text = Err e
  end.
Proof.
  unfold Popup.executeQuickQuery, QueryToolController_checkPendingQuery,
    QueryToolController.executeQuery. cbv zeta.
  destruct (trim text) as [|c r] eqn:E; [reflexivity|].
  destruct (SqlParser.parse (c :: r)) as [parsedQuery|e] eqn:Ep;
    cbn [bind]; [|reflexivity].
  rewrite <- E, trim_idem, E, Ep. reflexivity.
Qed.
